(** * lit-parrot: the decoding loop of [generate/warm_then_infere.py]

    A shallow embedding of [generate] and [infere] and the properties of the
    decoding loop, the sampling policy and the sample generator.

    Conventions of the embedding:
    - token ids and Python ints are [Z]; tensor positions and sizes are [nat];
      the token tensors have an integer dtype, whose wrap-around is written
      out where the source converts to it;
    - logits are rationals ([Q]) and a masked logit is [NegInf]: the
      division by the temperature is exact where the floats of the source
      round, so the properties of the sampling policy are stated on the
      scaled logits; a zero temperature, which leaves only infinities and
      NaN in the source, is an error of the draw;
    - the scorer ([torch.nn.Module]), the tokenizer and the parts of the
      tensor library whose result is not fixed by the source
      ([torch.multinomial], the exponential of [softmax], the content of
      [torch.empty], the generator seeded by [L.seed_everything]) are records
      of operations; their contracts are stated as separate law records;
    - Python's effects are explicit: a computation takes the world (scorer
      cache, random generator, event log) and gives back the new world and
      either an exception or a value;
    - [load_model] is embedded over a record of its collaborators, with
      the calls it makes logged in order;
    - left out: the [xm.mark_step()] barrier on XLA devices and the timing
      and memory reports on stderr. *)

From Stdlib Require Import String Ascii.
From Stdlib Require Import List ZArith QArith Lia Lqa Bool Arith Permutation Sorted.
Import ListNotations.

Set Implicit Arguments.

(* ================================================================== *)
(** ** Exceptions and the effect monad                                 *)
(* ================================================================== *)

Inductive exn : Type :=
| AssertionError
| IndexError
| RuntimeError
| TypeError
| NameError (name : string)
| UnboundLocalError (name : string)
| AttributeError (name : string)
| ValueError (message : string)
| ModelFailure (code : Z).

Inductive outcome (A : Type) : Type :=
| Raised (e : exn)
| Val (a : A).
Arguments Raised {A} e.
Arguments Val {A} a.

(** What the outside world can observe of a run. *)
Inductive event : Type :=
| EvEncode (prompt : string)
| EvSeed (seed : Z)
| EvForward (window : list Z) (max_seq_length : Z) (input_pos : list nat)
| EvResetCache
| EvDecode (tokens : list Z)
| EvYield (text : string).

Record world (C G : Type) : Type := World {
  w_cache : C;
  w_rng : G;
  w_log : list event   (* oldest event first *)
}.

Definition Py (C G A : Type) : Type := world C G -> world C G * outcome A.

Definition ret {C G A} (a : A) : Py C G A := fun w => (w, Val a).
Definition raise {C G A} (e : exn) : Py C G A := fun w => (w, Raised e).
Definition bind {C G A B} (m : Py C G A) (k : A -> Py C G B) : Py C G B :=
  fun w => match m w with
           | (w', Val a) => k a w'
           | (w', Raised e) => (w', Raised e)
           end.
Definition lift {C G A} (o : outcome A) : Py C G A := fun w => (w, o).
Definition emit {C G} (e : event) : Py C G unit :=
  fun w => (World (w_cache w) (w_rng w) (w_log w ++ [e]), Val tt).

Declare Scope py_scope.
Delimit Scope py_scope with py.
Notation "x <- m ;; k" := (bind m (fun x => k))
  (at level 61, m at next level, right associativity) : py_scope.
Notation "m ;;; k" := (bind m (fun _ => k))
  (at level 61, right associativity) : py_scope.
Open Scope py_scope.

(* ================================================================== *)
(** ** External collaborators                                          *)
(* ================================================================== *)

(** [model(x, max_seq_length, input_pos)]: the logits have one row per
    window entry in a well-behaved scorer; the embedding only relies on what
    the source reads, the last row.  [reset_cache] is [model.reset_cache()],
    [block_size] is [model.config.block_size]. *)
Record Model : Type := {
  cache : Type;
  forward : cache -> list Z -> Z -> list nat -> outcome (cache * list (list Q));
  reset_cache : cache -> cache;
  block_size : Z
}.

Record Tokenizer : Type := {
  encode : string -> list Z;
  decode : list Z -> string
}.

(** The integer dtypes of a token tensor. *)
Inductive int_dtype : Type :=
| UInt8
| Int8
| Int16
| Int32
| Int64.

Definition dtype_bits (d : int_dtype) : Z :=
  match d with
  | UInt8 | Int8 => 8
  | Int16 => 16
  | Int32 => 32
  | Int64 => 64
  end.

Definition dtype_signed (d : int_dtype) : bool :=
  match d with UInt8 => false | _ => true end.

(** The largest value the dtype holds. *)
Definition dtype_max (d : int_dtype) : Z :=
  if dtype_signed d then (2 ^ (dtype_bits d - 1) - 1)%Z
  else (2 ^ dtype_bits d - 1)%Z.

(** [.to(dtype=d)] on an integer: the value modulo [2 ^ bits], read as a
    two's complement number in a signed dtype. *)
Definition to_dtype (d : int_dtype) (z : Z) : Z :=
  let m := (2 ^ dtype_bits d)%Z in
  let r := (z mod m)%Z in
  if dtype_signed d && (m / 2 <=? r)%Z then (r - m)%Z else r.

(** The tensor library: [multinomial g probs] is
    [torch.multinomial(probs, num_samples=1)] drawing from generator state
    [g]; [texp] is the exponential used by [softmax]; [uninit i] is whatever
    [torch.empty] leaves in slot [i]; [seed_rng s] is the generator state
    after [L.seed_everything(s)]; [idx_dtype] is the dtype of the token
    tensors of a run ([idx.dtype]). *)
Record Torch : Type := {
  rng : Type;
  multinomial : rng -> list Q -> outcome (nat * rng);
  texp : Q -> Q;
  uninit : nat -> Z;
  seed_rng : Z -> rng;
  idx_dtype : int_dtype
}.

(** Contract of the tensor library used by the proofs: the exponential is
    positive, a draw lands on an entry of positive weight, and a draw from
    non-negative weights that are not all zero succeeds. *)
Record TorchLaws (T : Torch) : Prop := {
  texp_pos : forall x, 0 < texp T x;
  multinomial_support : forall g p i g',
      multinomial T g p = Val (i, g') ->
      exists x, nth_error p i = Some x /\ 0 < x;
  multinomial_total : forall g p,
      (forall x, In x p -> 0 <= x) ->
      (exists x, In x p /\ 0 < x) ->
      exists i g', multinomial T g p = Val (i, g')
}.

(* ================================================================== *)
(** ** Tensor operations used by [generate]                            *)
(* ================================================================== *)

Definition Qltb (x y : Q) : bool := negb (Qle_bool y x).

(** A logit after masking: [torch.where(.., -float("Inf"), logits)]. *)
Inductive xlogit : Type :=
| NegInf
| Fin (q : Q).

Definition is_fin (x : xlogit) : bool :=
  match x with NegInf => false | Fin _ => true end.

(** [idx.index_select(0, input_pos)] *)
Fixpoint index_select (idx : list Z) (input_pos : list nat) : outcome (list Z) :=
  match input_pos with
  | [] => Val []
  | p :: ps =>
      match nth_error idx p with
      | None => Raised IndexError
      | Some t =>
          match index_select idx ps with
          | Val ts => Val (t :: ts)
          | Raised e => Raised e
          end
      end
  end.

Fixpoint set_nth (idx : list Z) (p : nat) (t : Z) : list Z :=
  match idx, p with
  | [], _ => []
  | _ :: r, O => t :: r
  | a :: r, S p' => a :: set_nth r p' t
  end.

(** [idx.index_copy(0, input_pos, idx_next)] with [idx_next] of shape (1,):
    the index must have exactly one entry, inside the buffer; any other
    index is an [IndexError]. *)
Definition index_copy (idx : list Z) (input_pos : list nat) (idx_next : Z)
  : outcome (list Z) :=
  match input_pos with
  | [p] => if (p <? length idx)%nat then Val (set_nth idx p idx_next)
           else Raised IndexError
  | _ => Raised IndexError
  end.

(** [input_pos[-1:]] *)
Definition last_slice (input_pos : list nat) : list nat :=
  match rev input_pos with
  | [] => []
  | p :: _ => [p]
  end.

(** [input_pos[-1:] + 1] *)
Definition advance (input_pos : list nat) : list nat :=
  map S (last_slice input_pos).

(** [idx[:input_pos]]: a one-element integer tensor converts to an index. *)
Definition slice_to (idx : list Z) (input_pos : list nat) : outcome (list Z) :=
  match input_pos with
  | [p] => Val (firstn p idx)
  | _ => Raised TypeError
  end.

(** [logits[0, -1]] *)
Definition last_row (rows : list (list Q)) : outcome (list Q) :=
  match rev rows with
  | [] => Raised IndexError
  | r :: _ => Val r
  end.

(** Descending insertion sort: the order [torch.topk] returns its values in. *)
Fixpoint insert_desc (x : Q) (l : list Q) : list Q :=
  match l with
  | [] => [x]
  | y :: r => if Qle_bool y x then x :: y :: r else y :: insert_desc x r
  end.

Fixpoint sort_desc (l : list Q) : list Q :=
  match l with
  | [] => []
  | x :: r => insert_desc x (sort_desc r)
  end.

(** [torch.topk(logits, k)] (values only): rejects [k] outside
    [0 .. len(logits)]. *)
Definition topk (logits : list Q) (k : Z) : outcome (list Q) :=
  if ((k <? 0) || (Z.of_nat (length logits) <? k))%Z then Raised RuntimeError
  else Val (firstn (Z.to_nat k) (sort_desc logits)).

(** [v[[-1]]] *)
Definition last_value (v : list Q) : outcome Q :=
  match rev v with
  | [] => Raised IndexError
  | x :: _ => Val x
  end.

(** [torch.where(logits < v[[-1]], -float("Inf"), logits)] *)
Definition mask_below (v : Q) (logits : list Q) : list xlogit :=
  map (fun x => if Qltb x v then NegInf else Fin x) logits.

(** Lines 78-80: the optional crop to the top k options. *)
Definition crop_top_k (top_k : option Z) (logits : list Q) : outcome (list xlogit) :=
  match top_k with
  | None => Val (map Fin logits)
  | Some k =>
      match topk logits (Z.min k (Z.of_nat (length logits))) with
      | Raised e => Raised e
      | Val v =>
          match last_value v with
          | Raised e => Raised e
          | Val t => Val (mask_below t logits)
          end
      end
  end.

Definition Qsum (l : list Q) : Q := fold_right Qplus 0 l.

Section Sampling.
Variable lib : Torch.

Definition weight (x : xlogit) : Q :=
  match x with NegInf => 0 | Fin q => texp lib q end.

(** [torch.nn.functional.softmax(logits, dim=-1)] *)
Definition softmax (logits : list xlogit) : list Q :=
  let ws := map weight logits in
  map (fun w => w / Qsum ws) ws.

(** Lines 75-83 on the last row of logits.  Dividing by a zero temperature
    leaves only infinities and NaN, which [torch.multinomial] rejects once
    the crop has gone through. *)
Definition sample_next (temperature : Q) (top_k : option Z) (row : list Q)
           (g : rng lib) : outcome (nat * rng lib) :=
  let logits := map (fun l => l / temperature) row in
  match crop_top_k top_k logits with
  | Raised e => Raised e
  | Val cropped =>
      if Qeq_bool temperature 0 then Raised RuntimeError
      else multinomial lib g (softmax cropped)
  end.
End Sampling.

(* ================================================================== *)
(** ** [generate]                                                      *)
(* ================================================================== *)

(** The variables the loop of [generate] rebinds. *)
Record loop_state : Type := LoopState {
  idx : list Z;
  input_pos : list nat
}.

(** One pass through the loop body either goes on or returns. *)
Inductive control : Type :=
| Continue (st : loop_state)
| Return (r : list Z).

(** [idx_next == eos_id]: never true when [eos_id] is [None]. *)
Definition eos_hit (idx_next : Z) (eos_id : option Z) : bool :=
  match eos_id with
  | None => false
  | Some e => Z.eqb idx_next e
  end.

Section Generate.
Variable M : Model.
Variable lib : Torch.

Local Notation "'PyM'" := (Py (cache M) (rng lib)).

(** [model(x, max_seq_length, input_pos)]: the call is observable whether
    or not the scorer fails; a failure propagates unmodified. *)
Definition call_model (x : list Z) (max_seq_length : Z) (pos : list nat)
  : PyM (list (list Q)) :=
  fun w =>
    let log := w_log w ++ [EvForward x max_seq_length pos] in
    match forward M (w_cache w) x max_seq_length pos with
    | Raised e => (World (w_cache w) (w_rng w) log, Raised e)
    | Val (c, rows) => (World c (w_rng w) log, Val rows)
    end.

(** Lines 75-83; [.to(dtype=dtype)] converts the drawn index to the dtype
    of [idx], which wraps around when the dtype is too narrow for it. *)
Definition draw (temperature : Q) (top_k : option Z) (row : list Q) : PyM Z :=
  fun w =>
    match sample_next lib temperature top_k row (w_rng w) with
    | Raised e => (w, Raised e)
    | Val (i, g) =>
        (World (w_cache w) g (w_log w), Val (to_dtype (idx_dtype lib) (Z.of_nat i)))
    end.

(** The body of the [for] loop, lines 71-96.  [.view(1, -1)] adds the batch
    dimension and leaves the window as it is, an empty one included. *)
Definition step (max_seq_length : Z) (temperature : Q) (top_k eos_id : option Z)
           (st : loop_state) : PyM control :=
  x <- lift (index_select (idx st) (input_pos st)) ;;
  logits <- call_model x max_seq_length (input_pos st) ;;
  row <- lift (last_row logits) ;;
  idx_next <- draw temperature top_k row ;;
  let input_pos' := advance (input_pos st) in
  idx' <- lift (index_copy (idx st) input_pos' idx_next) ;;
  if eos_hit idx_next eos_id
  then r <- lift (slice_to idx' input_pos') ;; ret (Return r)
  else ret (Continue (LoopState idx' input_pos')).

(** [for _ in range(n): ...] followed by [return idx]. *)
Fixpoint generate_loop (n : nat) (max_seq_length : Z) (temperature : Q)
         (top_k eos_id : option Z) (st : loop_state) : PyM (list Z) :=
  match n with
  | O => ret (idx st)
  | S n' =>
      c <- step max_seq_length temperature top_k eos_id st ;;
      match c with
      | Return r => ret r
      | Continue st' =>
          generate_loop n' max_seq_length temperature top_k eos_id st'
      end
  end.

(** [torch.empty(max_returned_tokens)] with [empty[:T] = idx]. *)
Definition fill_buffer (prompt : list Z) (max_returned_tokens : Z) : list Z :=
  let T := length prompt in
  prompt ++ map (uninit lib) (seq T (Z.to_nat max_returned_tokens - T)).

Definition generate (prompt : list Z) (max_returned_tokens max_seq_length : Z)
           (temperature : Q) (top_k eos_id : option Z) : PyM (list Z) :=
  let T := length prompt in
  if (Z.of_nat T <? max_returned_tokens)%Z then
    generate_loop (Z.to_nat (max_returned_tokens - Z.of_nat T))
                  max_seq_length temperature top_k eos_id
                  (LoopState (fill_buffer prompt max_returned_tokens) (seq 0 T))
  else raise AssertionError.
End Generate.

(* ================================================================== *)
(** ** [infere]                                                        *)
(* ================================================================== *)

(** Objects bound at module level. *)
Inductive pyobj : Type :=
| ObjModule (name : string)
| ObjClass (name : string)
| ObjFunction (name : string)
| ObjPath
| ObjFabric (device_type : string).

Definition globals : Type := list (string * pyobj).

(** The names the module binds at import time, in source order.  [fabric]
    is a local of [load_model] only. *)
Definition module_globals : globals :=
  [ ("json", ObjModule "json"); ("sys", ObjModule "sys");
    ("time", ObjModule "time"); ("warnings", ObjModule "warnings");
    ("Path", ObjClass "Path"); ("Optional", ObjClass "Optional");
    ("Tuple", ObjClass "Tuple"); ("L", ObjModule "lightning");
    ("torch", ObjModule "torch"); ("wd", ObjPath);
    ("Parrot", ObjClass "Parrot"); ("Tokenizer", ObjClass "Tokenizer");
    ("Config", ObjClass "Config");
    ("EmptyInitOnDevice", ObjClass "EmptyInitOnDevice");
    ("lazy_load", ObjClass "lazy_load");
    ("check_valid_checkpoint_dir", ObjFunction "check_valid_checkpoint_dir");
    ("generate", ObjFunction "generate");
    ("load_model", ObjFunction "load_model");
    ("infere", ObjFunction "infere") ]%string.

Fixpoint lookup_global (G : globals) (name : string) : outcome pyobj :=
  match G with
  | [] => Raised (NameError name)
  | (n, o) :: G' => if String.eqb n name then Val o else lookup_global G' name
  end.

(** [fabric.device]: the device type of the global [fabric]. *)
Definition fabric_device (G : globals) : outcome string :=
  match lookup_global G "fabric" with
  | Raised e => Raised e
  | Val (ObjFabric d) => Val d
  | Val _ => Raised (AttributeError "device")
  end.

(** The texts a run has yielded, oldest first. *)
Fixpoint yields (log : list event) : list string :=
  match log with
  | [] => []
  | EvYield s :: r => s :: yields r
  | _ :: r => yields r
  end.

(** What calling a Python function gives back: [infere] has a [yield] in
    its body, so calling it builds a generator around the suspended body. *)
Inductive pyvalue (C G : Type) : Type :=
| VStr (s : string)
| VGenerator (body : Py C G (option string)).
Arguments VStr {C G} s.
Arguments VGenerator {C G} body.

Section Infere.
Variable G : globals.
Variable M : Model.
Variable lib : Torch.
Variable tokenizer : Tokenizer.

Local Notation "'PyM'" := (Py (cache M) (rng lib)).

(** [L.seed_everything(1234)] *)
Definition seed_everything (s : Z) : PyM unit :=
  fun w => (World (w_cache w) (seed_rng lib s) (w_log w ++ [EvSeed s]), Val tt).

(** [model.reset_cache()] *)
Definition call_reset_cache : PyM unit :=
  fun w => (World (reset_cache M (w_cache w)) (w_rng w) (w_log w ++ [EvResetCache]),
            Val tt).

(** Lines 190-207; [result_as_string] is rebound on every pass.  The timing
    report on stderr is left out. *)
Fixpoint sample_loop (n : nat) (encoded : list Z) (max_returned_tokens : Z)
         (temperature : Q) (top_k : option Z) (result_as_string : option string)
  : PyM (option string) :=
  match n with
  | O => ret result_as_string
  | S n' =>
      y <- generate M lib encoded max_returned_tokens max_returned_tokens
                    temperature top_k None ;;
      call_reset_cache ;;;
      emit (EvDecode y) ;;;
      sample_loop n' encoded max_returned_tokens temperature top_k
                  (Some (decode tokenizer y))
  end.

(** The body of [infere], run when the generator is iterated.  The value is
    what [return] hands to [StopIteration]. *)
Definition infere_body (prompt : string) (num_samples max_new_tokens : Z)
           (top_k : option Z) (temperature : Q) : PyM (option string) :=
  _ <- lift (fabric_device G) ;;
  emit (EvEncode prompt) ;;;
  let encoded := encode tokenizer prompt in
  let prompt_length := Z.of_nat (length encoded) in
  let max_returned_tokens := (prompt_length + max_new_tokens)%Z in
  if (max_returned_tokens <=? block_size M)%Z then
    seed_everything 1234 ;;;
    result_as_string <- sample_loop (Z.to_nat num_samples) encoded
                          max_returned_tokens temperature top_k None ;;
    _ <- lift (fabric_device G) ;;
    match result_as_string with
    | None => raise (UnboundLocalError "result_as_string")
    | Some s =>
        if (num_samples =? 1)%Z then ret (Some s)
        else emit (EvYield s) ;;; ret None
    end
  else raise AssertionError.

Definition infere (prompt : string) (num_samples max_new_tokens : Z)
           (top_k : option Z) (temperature : Q)
  : pyvalue (cache M) (rng lib) :=
  VGenerator (infere_body prompt num_samples max_new_tokens top_k temperature).
End Infere.

(* ================================================================== *)
(** ** [load_model]                                                    *)
(* ================================================================== *)

Inductive dtype : Type :=
| BFloat16
| Float32.

(** [load_model] raises [ValueError] itself; whatever its collaborators
    raise, a [ValueError] of their own included, passes through as it is. *)
Inductive load_result (A : Type) : Type :=
| LoadFailed (e : exn)
| Loaded (a : A).
Arguments LoadFailed {A} e.
Arguments Loaded {A} a.

(** The calls [load_model] makes to the outside, in the order of the
    source. *)
Inductive load_event : Type :=
| LdCheckDir (checkpoint_dir : string)
| LdReadConfig (path : string)
| LdFabric
| LdInitModel (device_type : string) (d : dtype) (quantization_mode : option string)
| LdLoadCheckpoint (path : string)
| LdSetupModule
| LdTokenizer (vocabulary config : string).

(** The collaborators of [load_model]: [check_valid_checkpoint_dir];
    [read_config] for [Config( **json.load(fp))] on the opened file;
    [new_fabric] for [L.Fabric(devices=1)], giving [fabric.device.type];
    [torch.cuda.is_bf16_supported()]; [Path.is_file]; [init_model] for
    [Parrot(config)] under [EmptyInitOnDevice]; [load_checkpoint] for
    [lazy_load] with [load_state_dict]; [setup_module] for [model.eval()]
    with [fabric.setup_module]; [new_tokenizer] for [Tokenizer(..)]. *)
Record Loader (Cfg Mdl Tok : Type) : Type := {
  check_valid_checkpoint_dir : string -> outcome unit;
  read_config : string -> outcome Cfg;
  new_fabric : outcome string;
  is_bf16_supported : bool;
  is_file : string -> bool;
  init_model : Cfg -> string -> dtype -> option string -> outcome Mdl;
  load_checkpoint : string -> Mdl -> outcome Mdl;
  setup_module : Mdl -> outcome Mdl;
  new_tokenizer : string -> string -> outcome Tok
}.

(** [checkpoint_dir / name] *)
Definition path_join (dir name : string) : string :=
  (dir ++ "/" ++ name)%string.

(** [quantize == "gptq.int4"] *)
Definition is_gptq (quantize : option string) : bool :=
  match quantize with
  | Some q => String.eqb q "gptq.int4"
  | None => false
  end.

(** Line 125 *)
Definition pick_dtype (device_type : string) (bf16 : bool) : dtype :=
  if String.eqb device_type "cuda" && bf16 then BFloat16 else Float32.

Section LoadModel.
Variables Cfg Mdl Tok : Type.
Variable env : Loader Cfg Mdl Tok.

(** Lines 119-147, without the reports on stderr. *)
Definition load_model (checkpoint_dir : string) (quantize : option string)
  : list load_event * load_result (Mdl * Tok) :=
  let log1 := [LdCheckDir checkpoint_dir] in
  match check_valid_checkpoint_dir env checkpoint_dir with
  | Raised e => (log1, LoadFailed e)
  | Val _ =>
  let log2 := log1 ++ [LdReadConfig (path_join checkpoint_dir "lit_config.json")] in
  match read_config env (path_join checkpoint_dir "lit_config.json") with
  | Raised e => (log2, LoadFailed e)
  | Val config =>
  let log3 := log2 ++ [LdFabric] in
  match new_fabric env with
  | Raised e => (log3, LoadFailed e)
  | Val device_type =>
  let dtype := pick_dtype device_type (is_bf16_supported env) in
  let model_file :=
    if is_gptq quantize then "lit_model_gptq.4bit.pth"%string
    else "lit_model.pth"%string in
  if is_gptq quantize
     && negb (is_file env (path_join checkpoint_dir model_file))
  then (log3, LoadFailed (ValueError "Please run `python quantize/gptq.py` first"))
  else
  let checkpoint_path := path_join checkpoint_dir model_file in
  let log4 := log3 ++ [LdInitModel device_type dtype quantize] in
  match init_model env config device_type dtype quantize with
  | Raised e => (log4, LoadFailed e)
  | Val model =>
  let log5 := log4 ++ [LdLoadCheckpoint checkpoint_path] in
  match load_checkpoint env checkpoint_path model with
  | Raised e => (log5, LoadFailed e)
  | Val model =>
  let log6 := log5 ++ [LdSetupModule] in
  match setup_module env model with
  | Raised e => (log6, LoadFailed e)
  | Val model =>
  let log7 := log6 ++ [LdTokenizer (path_join checkpoint_dir "tokenizer.json")
                         (path_join checkpoint_dir "tokenizer_config.json")] in
  match new_tokenizer env (path_join checkpoint_dir "tokenizer.json")
                      (path_join checkpoint_dir "tokenizer_config.json") with
  | Raised e => (log7, LoadFailed e)
  | Val tokenizer => (log7, Loaded (model, tokenizer))
  end end end end end end end.
End LoadModel.

(* ================================================================== *)
(** ** Reference instances for closed examples                         *)
(* ================================================================== *)

(** A positive, increasing rational stand-in for the exponential. *)
Definition exp_q (x : Q) : Q :=
  if Qle_bool 0 x then 1 + x + x * x * (1 # 2)
  else / (1 - x + x * x * (1 # 2)).

(** Inverse-CDF draw: the first index whose running total exceeds [t]. *)
Fixpoint cdf_pick (t acc : Q) (p : list Q) (i : nat) : option nat :=
  match p with
  | [] => None
  | x :: r => if Qltb t (acc + x) then Some i
              else cdf_pick t (acc + x) r (S i)
  end.

(** A linear congruential generator: the state and a draw in [0, 1). *)
Definition lcg_next (g : Z) : Z := ((1103515245 * g + 12345) mod 2147483648)%Z.
Definition lcg_unit (g : Z) : Q := ((g mod 65536)%Z # 65536).

Definition ref_multinomial (g : Z) (p : list Q) : outcome (nat * Z) :=
  if existsb (fun x => Qltb x 0) p then Raised RuntimeError
  else if Qle_bool (Qsum p) 0 then Raised RuntimeError
  else match cdf_pick (lcg_unit g * Qsum p) 0 p 0 with
       | Some i => Val (i, lcg_next g)
       | None => Raised RuntimeError
       end.

Definition ref_torch : Torch :=
  {| rng := Z;
     multinomial := ref_multinomial;
     texp := exp_q;
     uninit := fun _ => (-1)%Z;
     seed_rng := fun s => (s mod 2147483648)%Z;
     idx_dtype := Int64 |}.

(** Logits with a single dominant value at token [t], over [V] tokens. *)
Definition one_hot (V t : nat) : list Q :=
  map (fun i => if Nat.eqb i t then 10 else 0) (seq 0 V).

(** A scripted scorer over [V] tokens: the cache counts the forward calls
    since the last reset; call number [c] puts the dominant logit on
    [nth c script d], one row per window entry. *)
Definition scripted_model (V : nat) (script : list nat) (d : nat) : Model :=
  {| cache := nat;
     forward := fun c x _ _ =>
       Val (S c, map (fun _ => one_hot V (nth c script d)) x);
     reset_cache := fun _ => O;
     block_size := 2048 |}.

(** A scorer over [V] tokens that finds every token equally likely. *)
Definition flat_model (V : nat) : Model :=
  {| cache := nat;
     forward := fun c x _ _ => Val (S c, map (fun _ => repeat 0 V) x);
     reset_cache := fun _ => O;
     block_size := 2048 |}.

(** The same scorer without a cache. *)
Definition uncached_flat_model (V : nat) : Model :=
  {| cache := unit;
     forward := fun c x _ _ => Val (c, map (fun _ => repeat 0 V) x);
     reset_cache := fun c => c;
     block_size := 2048 |}.

(** A tokenizer over the 26 capital letters: token [t] is the letter number
    [t], counted from ["A"]. *)
Definition letter_tokenizer : Tokenizer :=
  {| encode := fun s =>
       map (fun a => (Z.of_nat (nat_of_ascii a) - 65)%Z) (list_ascii_of_string s);
     decode := fun ts =>
       string_of_list_ascii (map (fun t => ascii_of_nat (Z.to_nat (t + 65))) ts) |}.

(** The module's globals with a [fabric] bound by hand. *)
Definition bound_globals : globals :=
  ("fabric"%string, ObjFabric "cpu") :: module_globals.

Definition fresh_world (M : Model) (lib : Torch) (c : cache M) (g : rng lib)
  : world (cache M) (rng lib) := World c g [].

(** A loader over a list of existing files: the model it builds records
    the checkpoint it was filled from. *)
Definition ref_loader (files : list string) (device_type : string) (bf16 : bool)
  : Loader unit (option string) unit :=
  {| check_valid_checkpoint_dir := fun _ => Val tt;
     read_config := fun _ => Val tt;
     new_fabric := Val device_type;
     is_bf16_supported := bf16;
     is_file := fun p => existsb (String.eqb p) files;
     init_model := fun _ _ _ _ => Val None;
     load_checkpoint := fun p _ => Val (Some p);
     setup_module := fun m => Val m;
     new_tokenizer := fun _ _ => Val tt |}.

(* ================================================================== *)
(** ** Vocabulary of the properties                                  *)
(* ================================================================== *)

(** Every later element is at most every earlier one. *)
Definition descending : list Q -> Prop := StronglySorted (fun a b => b <= a).

Definition count (f : Q -> bool) (l : list Q) : nat := length (filter f l).

(** [v] is the [k]-th largest value of [l] (k counted from 1): it occurs in
    [l], fewer than [k] entries are strictly larger and at least [k] entries
    are at least [v]. *)
Definition kth_largest (k : nat) (v : Q) (l : list Q) : Prop :=
  In v l /\
  (count (fun x => Qltb v x) l < k)%nat /\
  (k <= count (fun x => Qle_bool v x) l)%nat.

(** The [input_pos] arguments of the scorer calls in a log, oldest first. *)
Fixpoint forward_positions (log : list event) : list (list nat) :=
  match log with
  | [] => []
  | EvForward _ _ pos :: r => pos :: forward_positions r
  | _ :: r => forward_positions r
  end.

(** The positions the loop asks for when it starts from [pos]. *)
Fixpoint positions_from (n : nat) (pos : list nat) : list (list nat) :=
  match n with
  | O => []
  | S n' => pos :: positions_from n' (advance pos)
  end.

(** Prompt window first, then one position per step: [T], [T+1], ... *)
Definition expected_positions (T N : nat) : list (list nat) :=
  match N with
  | O => []
  | S m => seq 0 T :: map (fun j => [T + j]%nat) (seq 0 m)
  end.

(** The scorer contract of a vocabulary of [V] tokens: a forward call
    succeeds with one row of [V] logits per window entry. *)
Definition well_shaped (M : Model) (V : nat) : Prop :=
  forall c x msl pos, exists c' rows,
    forward M c x msl pos = Val (c', rows) /\
    length rows = length x /\
    Forall (fun r => length r = V) rows.

Definition top_k_positive (top_k : option Z) : Prop :=
  match top_k with
  | None => True
  | Some k => (0 < k)%Z
  end.

(** Two scorers (or one scorer run twice) give identical logits: from
    related caches a forward call gives the same rows and related caches, or
    fails the same way. *)
Definition same_logits (M1 M2 : Model) (R : cache M1 -> cache M2 -> Prop) : Prop :=
  forall c1 c2 x msl pos, R c1 c2 ->
    match forward M1 c1 x msl pos, forward M2 c2 x msl pos with
    | Val (c1', rows1), Val (c2', rows2) => rows1 = rows2 /\ R c1' c2'
    | Raised e1, Raised e2 => e1 = e2
    | _, _ => False
    end.

(** Related caches, the same generator state, the same events so far. *)
Definition world_rel {C1 C2 G : Type} (R : C1 -> C2 -> Prop)
           (w1 : world C1 G) (w2 : world C2 G) : Prop :=
  R (w_cache w1) (w_cache w2) /\ w_rng w1 = w_rng w2 /\ w_log w1 = w_log w2.

Definition same_run {C1 C2 G A : Type} (R : C1 -> C2 -> Prop)
           (r1 : world C1 G * outcome A) (r2 : world C2 G * outcome A) : Prop :=
  snd r1 = snd r2 /\ world_rel R (fst r1) (fst r2).

(** The sampling of the specification: plain softmax over every logit
    scaled by the reciprocal of the temperature, then one draw. *)
Definition plain_softmax (lib : Torch) (z : list Q) : list Q :=
  map (fun x => texp lib x / Qsum (map (texp lib) z)) z.

Definition plain_softmax_sample (lib : Torch) (temperature : Q) (row : list Q)
           (g : rng lib) : outcome (nat * rng lib) :=
  multinomial lib g (plain_softmax lib (map (fun l => l * / temperature) row)).

(** A call fails before the loop starts: an exception, and the world is as
    it was (no scorer call, no draw). *)
Definition fails_before_loop {C G A : Type} (w : world C G)
           (run : world C G * outcome A) : Prop :=
  (exists e, snd run = Raised e) /\ fst run = w.

(** The windows handed to the scorer, oldest first. *)
Fixpoint forward_windows (log : list event) : list (list Z) :=
  match log with
  | [] => []
  | EvForward x _ _ :: r => x :: forward_windows r
  | _ :: r => forward_windows r
  end.

(** A scorer call made for sequence limit [msl] over a buffer of [L] slots:
    as many window tokens as positions, every position inside the buffer. *)
Definition forward_within (msl : Z) (L : nat) (e : event) : Prop :=
  match e with
  | EvForward x m pos =>
      m = msl /\ length x = length pos /\ Forall (fun p => (p < L)%nat) pos
  | _ => False
  end.

(** An event that respects a scorer with block size [B]: a scorer call asks
    for a sequence limit of at most [B] and for positions below that limit. *)
Definition within_block (B : Z) (e : event) : Prop :=
  match e with
  | EvForward x m pos =>
      (m <= B)%Z /\ Forall (fun p => (Z.of_nat p < m)%Z) pos
  | _ => True
  end.

Definition is_forward (e : event) : bool :=
  match e with EvForward _ _ _ => true | _ => false end.

Definition is_reset (e : event) : bool :=
  match e with EvResetCache => true | _ => false end.

Definition is_decode (e : event) : bool :=
  match e with EvDecode _ => true | _ => false end.

Definition count_events (f : event -> bool) (log : list event) : nat :=
  length (filter f log).

(** Whatever rows the scorer answers with are [V] logits wide. *)
Definition rows_of_width (M : Model) (V : nat) : Prop :=
  forall c x msl pos c' rows,
    forward M c x msl pos = Val (c', rows) ->
    Forall (fun r => length r = V) rows.

(* ================================================================== *)
(** ** Facts about the tensor operations                               *)
(* ================================================================== *)


Lemma Qltb_lt (x y : Q) : Qltb x y = true <-> x < y.
Proof.
  unfold Qltb. rewrite negb_true_iff. split; intro H.
  - apply Qnot_le_lt. intro Hle. apply Qle_bool_iff in Hle. congruence.
  - destruct (Qle_bool y x) eqn:E; [|reflexivity].
    apply Qle_bool_iff in E. exfalso. exact (Qlt_not_le _ _ H E).
Qed.

Lemma Qltb_irrefl (x : Q) : Qltb x x = false.
Proof.
  destruct (Qltb x x) eqn:E; [|reflexivity].
  apply Qltb_lt in E. exfalso. exact (Qlt_irrefl _ E).
Qed.

Lemma Qle_bool_false (x y : Q) : Qle_bool x y = false -> y < x.
Proof.
  intro H. apply Qnot_le_lt. intro Hle. apply Qle_bool_iff in Hle. congruence.
Qed.

Lemma insert_desc_perm (x : Q) (l : list Q) : Permutation (insert_desc x l) (x :: l).
Proof.
  induction l as [|y r IH]; simpl.
  - apply Permutation_refl.
  - destruct (Qle_bool y x).
    + apply Permutation_refl.
    + eapply Permutation_trans; [apply perm_skip, IH | apply perm_swap].
Qed.

Lemma sort_desc_perm (l : list Q) : Permutation (sort_desc l) l.
Proof.
  induction l as [|x r IH]; simpl.
  - constructor.
  - eapply Permutation_trans; [apply insert_desc_perm | apply perm_skip, IH].
Qed.

Lemma sort_desc_length (l : list Q) : length (sort_desc l) = length l.
Proof. apply Permutation_length, sort_desc_perm. Qed.

Lemma insert_desc_sorted (x : Q) (l : list Q) :
  descending l -> descending (insert_desc x l).
Proof.
  unfold descending. induction 1 as [|y r Hr IH Hy]; simpl.
  - repeat constructor.
  - destruct (Qle_bool y x) eqn:E.
    + apply Qle_bool_iff in E. constructor.
      * constructor; assumption.
      * constructor; [exact E|].
        eapply Forall_impl; [|exact Hy]. intros a Ha. simpl in Ha.
        eapply Qle_trans; eassumption.
    + apply Qle_bool_false in E. constructor; [exact IH|].
      apply (Permutation_Forall (Permutation_sym (insert_desc_perm x r))).
      constructor; [apply Qlt_le_weak; exact E | exact Hy].
Qed.

Lemma sort_desc_sorted (l : list Q) : descending (sort_desc l).
Proof.
  induction l as [|x r IH]; simpl.
  - constructor.
  - apply insert_desc_sorted, IH.
Qed.

Lemma count_perm (f : Q -> bool) (l l' : list Q) :
  Permutation l l' -> count f l = count f l'.
Proof.
  unfold count. induction 1; simpl.
  - reflexivity.
  - destruct (f x); simpl; congruence.
  - destruct (f x), (f y); reflexivity.
  - congruence.
Qed.

Lemma count_none (f : Q -> bool) (l : list Q) :
  Forall (fun x => f x = false) l -> count f l = O.
Proof.
  unfold count. induction 1 as [|x r Hx _ IH]; simpl; [reflexivity|].
  rewrite Hx. exact IH.
Qed.

Lemma descending_nth_counts (s : list Q) :
  descending s ->
  forall j, (j < length s)%nat ->
    (count (fun x => Qltb (nth j s 0%Q) x) s <= j)%nat /\
    (S j <= count (fun x => Qle_bool (nth j s 0%Q) x) s)%nat.
Proof.
  unfold descending. induction 1 as [|a r Hr IH Ha]; intros j Hj.
  - simpl in Hj. lia.
  - destruct j as [|j]; simpl nth.
    + split.
      * unfold count. simpl. rewrite Qltb_irrefl.
        fold (count (fun x => Qltb a x) r). rewrite count_none; [lia|].
        eapply Forall_impl; [|exact Ha]. intros b Hb. simpl in Hb.
        destruct (Qltb a b) eqn:E; [|reflexivity].
        apply Qltb_lt in E. exfalso. exact (Qlt_not_le _ _ E Hb).
      * unfold count. simpl.
        assert (E : Qle_bool a a = true) by (apply Qle_bool_iff, Qle_refl).
        rewrite E. simpl. lia.
    + simpl in Hj. destruct (IH j) as [H1 H2]; [lia|].
      assert (Hv : nth j r 0 <= a).
      { rewrite Forall_forall in Ha. apply Ha, nth_In. lia. }
      split.
      * unfold count in *. simpl.
        destruct (Qltb (nth j r 0) a); simpl; lia.
      * unfold count in *. simpl.
        apply Qle_bool_iff in Hv. rewrite Hv. simpl. lia.
Qed.

Lemma last_value_firstn (s : list Q) (k : nat) :
  (1 <= k <= length s)%nat ->
  last_value (firstn k s) = Val (nth (k - 1) s 0).
Proof.
  intros Hk. unfold last_value.
  destruct k as [|k]; [lia|].
  replace (S k - 1)%nat with k by lia.
  rewrite <- (firstn_skipn k s) at 1.
  assert (Hs : skipn k s = nth k s 0 :: skipn (S k) s).
  { clear -Hk. revert k Hk. induction s as [|a r IH]; intros k Hk.
    - simpl in Hk. lia.
    - destruct k as [|k]; [reflexivity|]. simpl in Hk.
      change (skipn (S k) (a :: r)) with (skipn k r).
      change (nth (S k) (a :: r) 0) with (nth k r 0).
      change (skipn (S (S k)) (a :: r)) with (skipn (S k) r).
      apply IH. lia. }
  rewrite Hs.
  assert (Hf : firstn (S k) (firstn k s ++ nth k s 0 :: skipn (S k) s)
               = firstn k s ++ [nth k s 0]).
  { rewrite firstn_app.
    assert (Hl : length (firstn k s) = k) by (rewrite length_firstn; lia).
    rewrite Hl. rewrite firstn_all2 by lia.
    replace (S k - k)%nat with 1%nat by lia. reflexivity. }
  rewrite Hf, rev_app_distr. reflexivity.
Qed.

(** The threshold [v[[-1]]] computed by lines 79-80 is the [k]-th largest
    logit. *)
Lemma topk_threshold (logits : list Q) (k : nat) :
  (1 <= k <= length logits)%nat ->
  exists v,
    topk logits (Z.min (Z.of_nat k) (Z.of_nat (length logits)))
      = Val (firstn k (sort_desc logits)) /\
    last_value (firstn k (sort_desc logits)) = Val v /\
    kth_largest k v logits.
Proof.
  intros Hk. exists (nth (k - 1) (sort_desc logits) 0).
  split; [|split].
  - unfold topk. rewrite Z.min_l by lia.
    destruct (Z.ltb_spec (Z.of_nat k) 0); [lia|].
    destruct (Z.ltb_spec (Z.of_nat (length logits)) (Z.of_nat k)); [lia|].
    simpl. rewrite Nat2Z.id. reflexivity.
  - apply last_value_firstn. rewrite sort_desc_length. exact Hk.
  - pose proof (sort_desc_perm logits) as P.
    destruct (descending_nth_counts (sort_desc_sorted logits) (j := (k - 1)%nat))
      as [H1 H2]; [rewrite sort_desc_length; lia|].
    split; [|split].
    + eapply Permutation_in; [exact P|]. apply nth_In.
      rewrite sort_desc_length. lia.
    + rewrite <- (count_perm _ P). lia.
    + rewrite <- (count_perm _ P). lia.
Qed.

Lemma mask_below_length (v : Q) (l : list Q) :
  length (mask_below v l) = length l.
Proof. apply length_map. Qed.

Lemma mask_below_nth (v : Q) (l : list Q) (i : nat) (x : Q) :
  nth_error l i = Some x ->
  (x < v -> nth_error (mask_below v l) i = Some NegInf) /\
  (v <= x -> nth_error (mask_below v l) i = Some (Fin x)).
Proof.
  intros H. unfold mask_below.
  rewrite (map_nth_error _ _ _ H).
  split; intro Hx.
  - apply Qltb_lt in Hx. rewrite Hx. reflexivity.
  - destruct (Qltb x v) eqn:E; [|reflexivity].
    apply Qltb_lt in E. exfalso. exact (Qlt_not_le _ _ E Hx).
Qed.

Lemma mask_below_finite (v : Q) (l : list Q) :
  length (filter is_fin (mask_below v l)) = count (fun x => Qle_bool v x) l.
Proof.
  unfold count, mask_below, Qltb. induction l as [|x r IH]; simpl; [reflexivity|].
  destruct (Qle_bool v x); simpl; rewrite IH; reflexivity.
Qed.

Lemma Qsum_nonneg (l : list Q) :
  (forall x, In x l -> 0 <= x) -> 0 <= Qsum l.
Proof.
  induction l as [|a r IH]; intros H; simpl.
  - apply Qle_refl.
  - rewrite <- (Qplus_0_l 0). apply Qplus_le_compat.
    + apply H. left. reflexivity.
    + apply IH. intros x Hx. apply H. right. exact Hx.
Qed.

Lemma Qsum_pos (l : list Q) :
  (forall x, In x l -> 0 <= x) ->
  (exists x, In x l /\ 0 < x) ->
  0 < Qsum l.
Proof.
  induction l as [|a r IH]; intros Hn [x [Hin Hx]].
  - destruct Hin.
  - simpl. destruct Hin as [->|Hin].
    + rewrite <- (Qplus_0_r 0). apply Qplus_lt_le_compat; [exact Hx|].
      apply Qsum_nonneg. intros y Hy. apply Hn. right. exact Hy.
    + rewrite Qplus_comm, <- (Qplus_0_r 0). apply Qplus_lt_le_compat.
      * apply IH; [|exists x; split; assumption].
        intros y Hy. apply Hn. right. exact Hy.
      * apply Hn. left. reflexivity.
Qed.

Lemma Qdiv_pos (a s : Q) : 0 < a -> 0 < s -> 0 < a / s.
Proof.
  intros Ha Hs. unfold Qdiv.
  apply Qmult_lt_0_compat; [exact Ha | apply Qinv_lt_0_compat; exact Hs].
Qed.

Lemma Qdiv_nonneg (a s : Q) : 0 <= a -> 0 <= s -> 0 <= a / s.
Proof.
  intros Ha Hs. unfold Qdiv.
  apply Qmult_le_0_compat; [exact Ha | apply Qinv_le_0_compat; exact Hs].
Qed.

Lemma Qdiv_zero (s : Q) : 0 / s == 0.
Proof. unfold Qdiv. apply Qmult_0_l. Qed.

Section SoftmaxFacts.
Variable lib : Torch.
Hypothesis laws : TorchLaws lib.

Lemma weight_nonneg (x : xlogit) : 0 <= weight lib x.
Proof.
  destruct x; simpl; [apply Qle_refl | apply Qlt_le_weak, (texp_pos laws)].
Qed.

Lemma weights_nonneg (l : list xlogit) :
  forall w, In w (map (weight lib) l) -> 0 <= w.
Proof.
  intros w Hw. apply in_map_iff in Hw. destruct Hw as [x [<- _]].
  apply weight_nonneg.
Qed.

Lemma softmax_length (l : list xlogit) : length (softmax lib l) = length l.
Proof. unfold softmax. rewrite !length_map. reflexivity. Qed.

Lemma softmax_nth (l : list xlogit) (i : nat) (x : xlogit) :
  nth_error l i = Some x ->
  nth_error (softmax lib l) i
  = Some (weight lib x / Qsum (map (weight lib) l)).
Proof.
  intros H. unfold softmax.
  apply (map_nth_error (fun w => w / Qsum (map (weight lib) l))).
  apply map_nth_error. exact H.
Qed.

Lemma softmax_nth_inv (l : list xlogit) (i : nat) (p : Q) :
  nth_error (softmax lib l) i = Some p ->
  exists x, nth_error l i = Some x /\
            p = weight lib x / Qsum (map (weight lib) l).
Proof.
  intros H. destruct (nth_error l i) as [x|] eqn:E.
  - exists x. split; [reflexivity|].
    rewrite (softmax_nth _ _ E) in H. congruence.
  - apply nth_error_None in E. rewrite <- softmax_length in E.
    apply nth_error_None in E. congruence.
Qed.

Lemma softmax_nonneg (l : list xlogit) :
  forall p, In p (softmax lib l) -> 0 <= p.
Proof.
  intros p Hp. unfold softmax in Hp. apply in_map_iff in Hp.
  destruct Hp as [w [<- Hw]].
  apply Qdiv_nonneg; [exact (weights_nonneg _ _ Hw)|].
  apply Qsum_nonneg, weights_nonneg.
Qed.

Lemma softmax_finite_pos (l : list xlogit) (q : Q) :
  In (Fin q) l -> exists p, In p (softmax lib l) /\ 0 < p.
Proof.
  intros H.
  assert (Hw : In (texp lib q) (map (weight lib) l)).
  { change (texp lib q) with (weight lib (Fin q)). apply in_map. exact H. }
  exists (texp lib q / Qsum (map (weight lib) l)). split.
  - unfold softmax.
    apply (in_map (fun w => w / Qsum (map (weight lib) l))) in Hw. exact Hw.
  - apply Qdiv_pos; [apply (texp_pos laws)|].
    apply Qsum_pos; [apply weights_nonneg|].
    exists (texp lib q). split; [exact Hw | apply (texp_pos laws)].
Qed.

(** A masked entry carries no probability mass, so it is never drawn. *)
Lemma softmax_masked (l : list xlogit) (i : nat) :
  nth_error l i = Some NegInf ->
  exists p, nth_error (softmax lib l) i = Some p /\ p == 0.
Proof.
  intros H. eexists. split; [apply (softmax_nth _ _ H)|].
  simpl. apply Qdiv_zero.
Qed.

Lemma draw_not_masked (l : list xlogit) (g : rng lib) (i : nat) (g' : rng lib) :
  multinomial lib g (softmax lib l) = Val (i, g') ->
  exists q, nth_error l i = Some (Fin q).
Proof.
  intros H. destruct (multinomial_support laws _ _ H) as [p [Hp Hpos]].
  destruct (softmax_nth_inv _ _ Hp) as [x [Hx ->]].
  destruct x as [|q]; [|exists q; exact Hx].
  exfalso. simpl in Hpos. rewrite Qdiv_zero in Hpos.
  exact (Qlt_irrefl _ Hpos).
Qed.
End SoftmaxFacts.

(* ================================================================== *)
(** ** Facts about one pass of the loop                                *)
(* ================================================================== *)

Lemma set_nth_length (l : list Z) (p : nat) (t : Z) :
  length (set_nth l p t) = length l.
Proof.
  revert p. induction l as [|a r IH]; intros p; simpl; [reflexivity|].
  destruct p; simpl; [reflexivity | rewrite IH; reflexivity].
Qed.

(** Writing slot [p] leaves the slots before it alone. *)
Lemma firstn_set_nth (l : list Z) (p : nat) (t : Z) :
  firstn p (set_nth l p t) = firstn p l.
Proof.
  revert p. induction l as [|a r IH]; intros p; simpl.
  - destruct p; reflexivity.
  - destruct p; simpl; [reflexivity | rewrite IH; reflexivity].
Qed.

Lemma index_select_length (l : list Z) (pos : list nat) (x : list Z) :
  index_select l pos = Val x -> length x = length pos.
Proof.
  revert x. induction pos as [|p ps IH]; intros x H; simpl in H.
  - inversion H. reflexivity.
  - destruct (nth_error l p); [|discriminate].
    destruct (index_select l ps) as [e|ts]; [discriminate|].
    inversion H. simpl. rewrite (IH ts eq_refl). reflexivity.
Qed.

Lemma index_select_in_range (l : list Z) (pos : list nat) :
  Forall (fun p => (p < length l)%nat) pos ->
  exists x, index_select l pos = Val x.
Proof.
  induction 1 as [|p ps Hp _ [ts IH]]; simpl.
  - eexists. reflexivity.
  - destruct (nth_error l p) eqn:E.
    + rewrite IH. eexists. reflexivity.
    + apply nth_error_None in E. lia.
Qed.

Lemma advance_singleton (p : nat) : advance [p] = [S p].
Proof. reflexivity. Qed.

Lemma advance_seq (T : nat) : (0 < T)%nat -> advance (seq 0 T) = [T].
Proof.
  intros H. destruct T as [|T]; [lia|].
  unfold advance, last_slice. rewrite seq_S, rev_app_distr. reflexivity.
Qed.

Section StepFacts.
Variable M : Model.
Variable lib : Torch.
Variables (max_seq_length : Z) (temperature : Q) (top_k eos_id : option Z).

Local Notation "'step_'" := (step M lib max_seq_length temperature top_k eos_id).
Local Notation "'loop_'" :=
  (fun n => generate_loop M lib n max_seq_length temperature top_k eos_id).

(** What one pass can do.  Either the window cannot be built and nothing
    happened, or the scorer was called exactly once on
    [(window, input_pos)], an empty window included; a pass that goes on or
    returns has written the drawn token [t] at the single advanced
    position [p]. *)
Lemma step_inv (st : loop_state) (w w' : world (cache M) (rng lib))
      (o : outcome control) :
  step_ st w = (w', o) ->
  (exists e, w' = w /\ o = Raised e)
  \/
  (exists x, index_select (idx st) (input_pos st) = Val x /\
     w_log w' = w_log w ++ [EvForward x max_seq_length (input_pos st)] /\
     match o with
     | Raised _ => True
     | Val c =>
         exists p t, advance (input_pos st) = [p] /\
           (p < length (idx st))%nat /\
           match c with
           | Continue st' =>
               st' = LoopState (set_nth (idx st) p t) [p] /\
               eos_hit t eos_id = false
           | Return r =>
               r = firstn p (set_nth (idx st) p t) /\
               eos_hit t eos_id = true
           end
     end).
Proof.
  unfold step, bind, lift, call_model, draw, ret. intros H.
  destruct (index_select (idx st) (input_pos st)) as [e|x] eqn:Ex.
  - left. exists e. inversion H. auto.
  - right. exists x. split; [reflexivity|].
    destruct (forward M (w_cache w) x max_seq_length (input_pos st))
      as [e|[c rows]] eqn:Ef.
    + inversion H. subst. simpl. auto.
    + destruct (last_row rows) as [e|row] eqn:Er.
      * inversion H. subst. simpl. auto.
      * cbn [w_rng w_cache w_log] in H.
        destruct (sample_next lib temperature top_k row (w_rng w))
          as [e|[i g]] eqn:Es.
        -- inversion H. subst. simpl. auto.
        -- unfold index_copy in H.
           destruct (advance (input_pos st)) as [|p [|p' ps]] eqn:Ea.
           ++ inversion H. subst. simpl. auto.
           ++ destruct (p <? length (idx st))%nat eqn:Ep.
              ** apply Nat.ltb_lt in Ep.
                 destruct (eos_hit (to_dtype (idx_dtype lib) (Z.of_nat i)) eos_id)
                   eqn:Ee.
                 --- cbn in H. inversion H. subst. simpl.
                     split; [reflexivity|].
                     exists p, (to_dtype (idx_dtype lib) (Z.of_nat i)). auto.
                 --- inversion H. subst. simpl.
                     split; [reflexivity|].
                     exists p, (to_dtype (idx_dtype lib) (Z.of_nat i)). auto.
              ** inversion H. subst. simpl. auto.
           ++ inversion H. subst. simpl. auto.
Qed.

(** The buffer keeps its capacity, and whatever comes back fits in it. *)
Lemma loop_length_le (n : nat) :
  forall st w w' r,
    loop_ n st w = (w', Val r) -> (length r <= length (idx st))%nat.
Proof.
  induction n as [|n IH]; intros st w w' r H; simpl in H.
  - inversion H. lia.
  - unfold bind in H. destruct (step_ st w) as [w1 [e|c]] eqn:Es.
    + discriminate.
    + destruct (step_inv _ _ Es) as [[e [_ He]]|[x [_ [_ Hc]]]];
        [discriminate|].
      destruct Hc as [p [t [_ [Hp Hc]]]].
      destruct c as [st'|r'].
      * destruct Hc as [-> _]. apply IH in H. simpl in H.
        rewrite set_nth_length in H. exact H.
      * destruct Hc as [-> _]. inversion H. subst.
        rewrite length_firstn, set_nth_length. lia.
Qed.
End StepFacts.

(** With [eos_id] unset a pass never returns early, so whatever scorer and
    tensor library are used, a run that returns gives back the whole
    buffer. *)
Lemma loop_length_no_eos (M : Model) (lib : Torch) msl temperature top_k (n : nat) :
  forall st w w' r,
    generate_loop M lib n msl temperature top_k None st w = (w', Val r) ->
    length r = length (idx st).
Proof.
  induction n as [|n IH]; intros st w w' r H; simpl in H.
  - inversion H. reflexivity.
  - unfold bind in H.
    destruct (step M lib msl temperature top_k None st w) as [w1 [e|c]] eqn:Es;
      [discriminate|].
    destruct (step_inv _ _ _ _ _ _ _ _ Es) as [[e [_ He]]|[x [_ [_ Hc]]]];
      [discriminate|].
    destruct Hc as [p [t [_ [_ Hc]]]].
    destruct c as [st'|r'].
    + destruct Hc as [-> _]. apply IH in H. simpl in H.
      rewrite set_nth_length in H. exact H.
    + destruct Hc as [_ Hc]. discriminate.
Qed.

Lemma fill_buffer_length (lib : Torch) (prompt : list Z) (mrt : Z) :
  (Z.of_nat (length prompt) < mrt)%Z ->
  length (fill_buffer lib prompt mrt) = Z.to_nat mrt.
Proof.
  intros H. unfold fill_buffer.
  rewrite length_app, length_map, length_seq. lia.
Qed.

(* ================================================================== *)
(** ** Position bookkeeping                                            *)
(* ================================================================== *)

Lemma forward_positions_app (a b : list event) :
  forward_positions (a ++ b) = forward_positions a ++ forward_positions b.
Proof.
  induction a as [|e r IH]; simpl; [reflexivity|].
  destruct e; simpl; rewrite IH; reflexivity.
Qed.

Lemma positions_from_singleton (n p : nat) :
  positions_from n [p] = map (fun j => [p + j]%nat) (seq 0 n).
Proof.
  revert p. induction n as [|n IH]; intros p; simpl; [reflexivity|].
  rewrite advance_singleton, IH, <- seq_shift, map_map.
  f_equal; [f_equal; lia|].
  apply map_ext. intros j. f_equal. lia.
Qed.

Lemma positions_from_prompt (T N m : nat) :
  ((0 < T)%nat \/ (m <= 1)%nat) ->
  firstn m (positions_from N (seq 0 T)) = firstn m (expected_positions T N).
Proof.
  intros H. destruct N as [|N]; [reflexivity|].
  simpl. destruct (Nat.eq_dec T 0) as [->|HT].
  - destruct H as [H|H]; [lia|].
    destruct m as [|[|m]]; [reflexivity | reflexivity | lia].
  - rewrite advance_seq by lia.
    rewrite positions_from_singleton. reflexivity.
Qed.

Section PositionFacts.
Variable M : Model.
Variable lib : Torch.
Variables (max_seq_length : Z) (temperature : Q) (top_k eos_id : option Z).

Lemma loop_positions (n : nat) :
  forall st w w' o,
    generate_loop M lib n max_seq_length temperature top_k eos_id st w = (w', o) ->
    exists m, (m <= n)%nat /\
      forward_positions (w_log w')
      = forward_positions (w_log w) ++ firstn m (positions_from n (input_pos st)) /\
      (input_pos st = [] -> (m <= 1)%nat) /\
      (eos_id = None -> (exists r, o = Val r) -> m = n).
Proof.
  induction n as [|n IH]; intros st w w' o H; simpl in H.
  - inversion H. subst. exists O. simpl. rewrite app_nil_r. auto.
  - unfold bind in H.
    destruct (step M lib max_seq_length temperature top_k eos_id st w)
      as [w1 oc] eqn:Es.
    destruct (step_inv _ _ _ _ _ _ _ _ Es) as [[e [-> ->]]|[x [_ [Hlog Hc]]]].
    + inversion H. subst. exists O. simpl. rewrite app_nil_r.
      repeat split; [lia | lia |]. intros _ [r Hr]. discriminate.
    + assert (Hone : forward_positions (w_log w1)
                     = forward_positions (w_log w) ++ [input_pos st]).
      { rewrite Hlog, forward_positions_app. reflexivity. }
      destruct oc as [e|c].
      * inversion H. subst. exists 1%nat. simpl. rewrite Hone.
        repeat split; [lia | lia |]. intros _ [r Hr]. discriminate.
      * destruct Hc as [p [t [Ha [Hp Hc]]]].
        destruct c as [st'|r].
        -- destruct Hc as [-> _].
           destruct (IH _ _ _ _ H) as [m [Hm [Hpos [_ Hall]]]].
           exists (S m). simpl in Hpos. simpl. rewrite Ha.
           rewrite Hpos, Hone, <- app_assoc. simpl.
           repeat split; [lia | | ].
           ++ intros Hnil. rewrite Hnil in Ha. discriminate.
           ++ intros He Hr. f_equal. apply Hall; assumption.
        -- destruct Hc as [-> Heos]. inversion H. subst.
           exists 1%nat. simpl. rewrite Hone.
           repeat split; [lia | lia |].
           intros He _. rewrite He in Heos. discriminate.
Qed.
End PositionFacts.

(* ================================================================== *)
(** ** Runs that cannot fail                                           *)
(* ================================================================== *)

Lemma last_row_shaped (rows : list (list Q)) (V : nat) :
  rows <> [] -> Forall (fun r => length r = V) rows ->
  exists row, last_row rows = Val row /\ length row = V.
Proof.
  intros Hne HV. unfold last_row.
  destruct (rev rows) as [|r rs] eqn:E.
  - apply (f_equal (@rev (list Q))) in E. rewrite rev_involutive in E.
    contradiction.
  - exists r. split; [reflexivity|].
    rewrite Forall_forall in HV. apply HV, in_rev. rewrite E. left. reflexivity.
Qed.

(** With a positive [top_k] the crop keeps the threshold entry itself. *)
Lemma crop_some (logits : list Q) (k : Z) :
  (0 < k)%Z -> logits <> [] ->
  exists v,
    kth_largest (Z.to_nat (Z.min k (Z.of_nat (length logits)))) v logits /\
    crop_top_k (Some k) logits = Val (mask_below v logits).
Proof.
  intros Hk Hne.
  assert (Hlen : (0 < length logits)%nat).
  { destruct logits; [contradiction | simpl; lia]. }
  set (k0 := Z.to_nat (Z.min k (Z.of_nat (length logits)))).
  assert (Hk0 : (1 <= k0 <= length logits)%nat) by (unfold k0; lia).
  destruct (topk_threshold logits Hk0) as [v [Ht [Hl Hv]]].
  exists v. split; [exact Hv|].
  unfold crop_top_k.
  replace (Z.min k (Z.of_nat (length logits)))
    with (Z.min (Z.of_nat k0) (Z.of_nat (length logits))) by (unfold k0; lia).
  rewrite Ht, Hl. reflexivity.
Qed.

Lemma mask_below_keeps_threshold (v : Q) (l : list Q) :
  In v l -> In (Fin v) (mask_below v l).
Proof.
  intros H. unfold mask_below.
  apply (in_map (fun x => if Qltb x v then NegInf else Fin x)) in H.
  rewrite Qltb_irrefl in H. exact H.
Qed.

Lemma crop_keeps_one (top_k : option Z) (logits : list Q) :
  top_k_positive top_k -> logits <> [] ->
  exists cropped q, crop_top_k top_k logits = Val cropped /\ In (Fin q) cropped.
Proof.
  intros Hk Hne. destruct top_k as [k|].
  - destruct (crop_some Hk Hne) as [v [[Hin _] Hc]].
    exists (mask_below v logits), v. split; [exact Hc|].
    apply mask_below_keeps_threshold, Hin.
  - destruct logits as [|q r]; [contradiction|].
    exists (map Fin (q :: r)), q. split; [reflexivity | left; reflexivity].
Qed.

Lemma Qeq_bool_nonzero (t : Q) : ~ t == 0 -> Qeq_bool t 0 = false.
Proof.
  intros H. destruct (Qeq_bool t 0) eqn:E; [|reflexivity].
  apply Qeq_bool_iff in E. contradiction.
Qed.

Section TotalRuns.
Variable M : Model.
Variable lib : Torch.
Variable V : nat.
Hypothesis laws : TorchLaws lib.
Hypothesis shaped : well_shaped M V.
Hypothesis vocab : (0 < V)%nat.
Variables (max_seq_length : Z) (temperature : Q) (top_k : option Z).
Hypothesis temp_nonzero : ~ temperature == 0.
Hypothesis k_positive : top_k_positive top_k.

Lemma sample_next_total (row : list Q) (g : rng lib) :
  length row = V ->
  exists i g', sample_next lib temperature top_k row g = Val (i, g').
Proof.
  intros Hrow. unfold sample_next.
  assert (Hne : map (fun l => l / temperature) row <> []).
  { destruct row; [simpl in Hrow; lia | discriminate]. }
  destruct (crop_keeps_one _ k_positive Hne) as [cropped [q [-> Hq]]].
  rewrite (Qeq_bool_nonzero temp_nonzero).
  apply (multinomial_total laws).
  - apply (softmax_nonneg laws).
  - apply (softmax_finite_pos laws _ _ Hq).
Qed.

Lemma step_total (st : loop_state) (w : world (cache M) (rng lib)) (q : nat) :
  Forall (fun p => (p < length (idx st))%nat) (input_pos st) ->
  advance (input_pos st) = [q] ->
  (q < length (idx st))%nat ->
  exists w' t,
    step M lib max_seq_length temperature top_k None st w
    = (w', Val (Continue (LoopState (set_nth (idx st) q t) [q]))).
Proof.
  intros Hr Ha Hq.
  destruct (index_select_in_range _ Hr) as [x Hx].
  assert (Hxne : x <> []).
  { intros ->. apply index_select_length in Hx.
    destruct (input_pos st); [discriminate Ha | discriminate Hx]. }
  destruct (shaped (w_cache w) x max_seq_length (input_pos st))
    as [c [rows [Hf [Hlen HV]]]].
  assert (Hrows : rows <> []).
  { intros ->. destruct x; [contradiction | discriminate Hlen]. }
  destruct (last_row_shaped Hrows HV) as [row [Hl Hrow]].
  destruct (sample_next_total row (w_rng w) Hrow) as [i [g Hs]].
  unfold step, bind, lift, call_model, draw, ret.
  rewrite Hx, Hf, Hl. cbn [w_rng w_cache w_log].
  rewrite Hs, Ha. unfold index_copy.
  apply Nat.ltb_lt in Hq. rewrite Hq. simpl.
  eexists. eexists. reflexivity.
Qed.

Lemma loop_total (n : nat) :
  forall st w q,
    Forall (fun p => (p < length (idx st))%nat) (input_pos st) ->
    advance (input_pos st) = [q] ->
    (q + n <= length (idx st))%nat ->
    exists w' r,
      generate_loop M lib n max_seq_length temperature top_k None st w
      = (w', Val r) /\
      length r = length (idx st).
Proof.
  induction n as [|n IH]; intros st w q Hr Ha Hq; simpl.
  - exists w, (idx st). split; reflexivity.
  - destruct (step_total st w Hr Ha) as [w1 [t Hs]]; [lia|].
    unfold bind. rewrite Hs.
    destruct (IH (LoopState (set_nth (idx st) q t) [q]) w1 (S q))
      as [w' [r [Hg Hl]]].
    + simpl. constructor; [rewrite set_nth_length; lia | constructor].
    + reflexivity.
    + simpl. rewrite set_nth_length. lia.
    + exists w', r. split; [exact Hg|].
      rewrite Hl. simpl. apply set_nth_length.
Qed.
End TotalRuns.

(* ================================================================== *)
(** ** Two runs side by side                                           *)
(* ================================================================== *)

Section SideBySide.
Variables M1 M2 : Model.
Variable lib : Torch.
Variable R : cache M1 -> cache M2 -> Prop.
Hypothesis sim : same_logits M1 M2 R.
Variables (max_seq_length : Z) (temperature : Q) (top_k eos_id : option Z).

Lemma step_sim (st : loop_state) (w1 : world (cache M1) (rng lib))
      (w2 : world (cache M2) (rng lib)) :
  world_rel R w1 w2 ->
  same_run R (step M1 lib max_seq_length temperature top_k eos_id st w1)
             (step M2 lib max_seq_length temperature top_k eos_id st w2).
Proof.
  intros [Hc [Hg Hl]].
  unfold same_run, world_rel, step, bind, lift, call_model, draw, ret.
  destruct (index_select (idx st) (input_pos st)) as [e|x]; simpl.
  - auto.
  - pose proof (sim x max_seq_length (input_pos st) Hc) as Hf.
    destruct (forward M1 (w_cache w1) x max_seq_length (input_pos st))
      as [e1|[c1 rows1]];
      destruct (forward M2 (w_cache w2) x max_seq_length (input_pos st))
        as [e2|[c2 rows2]]; try contradiction.
    + subst e2. simpl. rewrite Hl. auto.
    + destruct Hf as [<- Hc']. rewrite <- Hg, <- Hl.
      destruct (last_row rows1) as [e|row]; simpl; [auto|].
      destruct (sample_next lib temperature top_k row (w_rng w1)) as [e|[i g]];
        simpl; [auto|].
      destruct (index_copy (idx st) (advance (input_pos st))
                           (to_dtype (idx_dtype lib) (Z.of_nat i)))
        as [e|idx']; simpl; [auto|].
      destruct (eos_hit (to_dtype (idx_dtype lib) (Z.of_nat i)) eos_id);
        simpl; [|auto].
      destruct (slice_to idx' (advance (input_pos st))); simpl; auto.
Qed.

Lemma loop_sim (n : nat) :
  forall st w1 w2,
    world_rel R w1 w2 ->
    same_run R
      (generate_loop M1 lib n max_seq_length temperature top_k eos_id st w1)
      (generate_loop M2 lib n max_seq_length temperature top_k eos_id st w2).
Proof.
  induction n as [|n IH]; intros st w1 w2 Hw; simpl.
  - split; [reflexivity | exact Hw].
  - unfold bind. pose proof (step_sim st Hw) as Hs.
    destruct (step M1 lib max_seq_length temperature top_k eos_id st w1)
      as [w1' o1];
      destruct (step M2 lib max_seq_length temperature top_k eos_id st w2)
        as [w2' o2].
    destruct Hs as [Ho Hw']. simpl in Ho, Hw'. subst o2.
    destruct o1 as [e|[st'|r]].
    + split; [reflexivity | exact Hw'].
    + apply IH, Hw'.
    + split; [reflexivity | exact Hw'].
Qed.

Lemma generate_sim (prompt : list Z) (max_returned_tokens : Z)
      (w1 : world (cache M1) (rng lib)) (w2 : world (cache M2) (rng lib)) :
  world_rel R w1 w2 ->
  same_run R
    (generate M1 lib prompt max_returned_tokens max_seq_length
              temperature top_k eos_id w1)
    (generate M2 lib prompt max_returned_tokens max_seq_length
              temperature top_k eos_id w2).
Proof.
  intros Hw. unfold generate.
  destruct (Z.of_nat (length prompt) <? max_returned_tokens)%Z.
  - apply loop_sim, Hw.
  - split; [reflexivity | exact Hw].
Qed.
End SideBySide.

(* ================================================================== *)
(** ** The reference instances meet their contracts                    *)
(* ================================================================== *)

Lemma exp_q_pos (x : Q) : 0 < exp_q x.
Proof.
  unfold exp_q. destruct (Qle_bool 0 x) eqn:E.
  - apply Qle_bool_iff in E. nra.
  - apply Qle_bool_false in E. apply Qinv_lt_0_compat. nra.
Qed.

Lemma lcg_unit_range (g : Z) : 0 <= lcg_unit g /\ lcg_unit g < 1.
Proof.
  unfold lcg_unit, Qle, Qlt. simpl.
  pose proof (Z.mod_pos_bound g 65536 eq_refl). lia.
Qed.

Lemma cdf_pick_support (t : Q) (p : list Q) :
  forall acc j i,
    acc <= t -> cdf_pick t acc p j = Some i ->
    exists x, nth_error p (i - j) = Some x /\ 0 < x /\ (j <= i)%nat.
Proof.
  induction p as [|a r IH]; intros acc j i Hacc H; simpl in H; [discriminate|].
  destruct (Qltb t (acc + a)) eqn:E.
  - inversion H. subst. exists a. rewrite Nat.sub_diag.
    apply Qltb_lt in E. repeat split; [lra | lia].
  - assert (Hle : acc + a <= t).
    { apply Qnot_lt_le. intro Hlt. apply Qltb_lt in Hlt. congruence. }
    destruct (IH _ _ _ Hle H) as [x [Hx [Hpos Hj]]].
    exists x. replace (i - j)%nat with (S (i - S j)) by lia.
    repeat split; [exact Hx | exact Hpos | lia].
Qed.

Lemma cdf_pick_total (t : Q) (p : list Q) :
  forall acc j, acc <= t -> t < acc + Qsum p ->
                exists i, cdf_pick t acc p j = Some i.
Proof.
  induction p as [|a r IH]; intros acc j Hacc H; simpl in *.
  - exfalso. lra.
  - destruct (Qltb t (acc + a)) eqn:E; [eexists; reflexivity|].
    apply IH; [|lra].
    apply Qnot_lt_le. intro Hlt. apply Qltb_lt in Hlt. congruence.
Qed.

Lemma ref_torch_laws : TorchLaws ref_torch.
Proof.
  constructor.
  - exact exp_q_pos.
  - intros g p i g' H. simpl in H. unfold ref_multinomial in H.
    destruct (existsb (fun x => Qltb x 0) p); [discriminate|].
    destruct (Qle_bool (Qsum p) 0) eqn:Es; [discriminate|].
    apply Qle_bool_false in Es.
    destruct (cdf_pick (lcg_unit g * Qsum p) 0 p 0) as [i0|] eqn:Ec;
      [|discriminate].
    inversion H. subst.
    destruct (@cdf_pick_support (lcg_unit g * Qsum p) p 0 O i)
      as [x [Hx [Hpos _]]].
    + apply Qmult_le_0_compat; [apply lcg_unit_range | lra].
    + exact Ec.
    + exists x. rewrite Nat.sub_0_r in Hx. split; assumption.
  - intros g p Hn Hp. simpl. unfold ref_multinomial.
    assert (Hneg : existsb (fun x => Qltb x 0) p = false).
    { destruct (existsb (fun x => Qltb x 0) p) eqn:E; [|reflexivity].
      apply existsb_exists in E. destruct E as [x [Hin Hx]].
      apply Qltb_lt in Hx. specialize (Hn x Hin). exfalso. lra. }
    rewrite Hneg.
    pose proof (Qsum_pos _ Hn Hp) as Hs.
    assert (Hle : Qle_bool (Qsum p) 0 = false).
    { destruct (Qle_bool (Qsum p) 0) eqn:E; [|reflexivity].
      apply Qle_bool_iff in E. exfalso. lra. }
    rewrite Hle.
    destruct (@cdf_pick_total (lcg_unit g * Qsum p) p 0 O) as [i Hi].
    + apply Qmult_le_0_compat; [apply lcg_unit_range | lra].
    + destruct (lcg_unit_range g) as [_ Hu].
      assert (lcg_unit g * Qsum p < 1 * Qsum p)
        by (apply Qmult_lt_compat_r; assumption).
      lra.
    + rewrite Hi. eexists. eexists. reflexivity.
Qed.

Lemma scripted_model_width (V : nat) (script : list nat) (d : nat) :
  rows_of_width (scripted_model V script d) V.
Proof.
  intros c x msl pos c' rows H. simpl in H. inversion H. subst.
  apply Forall_forall. intros r Hr. apply in_map_iff in Hr.
  destruct Hr as [_ [<- _]]. unfold one_hot.
  rewrite length_map, length_seq. reflexivity.
Qed.

Lemma scripted_model_shaped (V : nat) (script : list nat) (d : nat) :
  well_shaped (scripted_model V script d) V.
Proof.
  intros c x msl pos. eexists. eexists. split; [reflexivity|].
  split; [apply length_map|].
  apply Forall_forall. intros r Hr. apply in_map_iff in Hr.
  destruct Hr as [_ [<- _]]. unfold one_hot.
  rewrite length_map, length_seq. reflexivity.
Qed.

(* ================================================================== *)
(** ** Facts about the sample generator                                *)
(* ================================================================== *)

Lemma yields_app (a b : list event) : yields (a ++ b) = yields a ++ yields b.
Proof.
  induction a as [|e r IH]; simpl; [reflexivity|].
  destruct e; simpl; rewrite IH; reflexivity.
Qed.

Section YieldFacts.
Variable M : Model.
Variable lib : Torch.
Variable tokenizer : Tokenizer.

Lemma loop_yields (n : nat) :
  forall msl temperature top_k eos_id st w w' o,
    generate_loop M lib n msl temperature top_k eos_id st w = (w', o) ->
    yields (w_log w') = yields (w_log w).
Proof.
  induction n as [|n IH]; intros msl temperature top_k eos_id st w w' o H;
    simpl in H.
  - inversion H. reflexivity.
  - unfold bind in H.
    destruct (step M lib msl temperature top_k eos_id st w) as [w1 oc] eqn:Es.
    assert (Hy : yields (w_log w1) = yields (w_log w)).
    { destruct (step_inv _ _ _ _ _ _ _ _ Es) as [[e [-> _]]|[x [_ [Hl _]]]].
      - reflexivity.
      - rewrite Hl, yields_app. simpl. apply app_nil_r. }
    destruct oc as [e|[st'|r]].
    + inversion H. subst. exact Hy.
    + apply IH in H. congruence.
    + inversion H. subst. exact Hy.
Qed.

Lemma generate_yields prompt mrt msl temperature top_k eos_id w w' o :
  generate M lib prompt mrt msl temperature top_k eos_id w = (w', o) ->
  yields (w_log w') = yields (w_log w).
Proof.
  unfold generate. destruct (Z.of_nat (length prompt) <? mrt)%Z.
  - apply loop_yields.
  - intros H. inversion H. reflexivity.
Qed.

Lemma sample_loop_yields (n : nat) :
  forall encoded mrt temperature top_k res w w' o,
    sample_loop M lib tokenizer n encoded mrt temperature top_k res w = (w', o) ->
    yields (w_log w') = yields (w_log w).
Proof.
  induction n as [|n IH]; intros encoded mrt temperature top_k res w w' o H;
    simpl in H.
  - inversion H. reflexivity.
  - unfold bind in H.
    destruct (generate M lib encoded mrt mrt temperature top_k None w)
      as [w1 [e|y]] eqn:Eg.
    + inversion H. subst. apply (generate_yields _ _ _ _ _ _ _ Eg).
    + unfold call_reset_cache, emit in H. cbn [w_cache w_rng w_log] in H.
      apply IH in H. cbn [w_log] in H.
      rewrite H, !yields_app. simpl. rewrite !app_nil_r.
      apply (generate_yields _ _ _ _ _ _ _ Eg).
Qed.

(** X14.  However many samples are asked for and however the run ends, a
    run of the body of [infere] yields at most one text. *)
Lemma infere_body_yields_at_most_one (G : globals) prompt num_samples
      max_new_tokens top_k temperature w w' o :
  infere_body G M lib tokenizer prompt num_samples max_new_tokens top_k
              temperature w = (w', o) ->
  exists extra, yields (w_log w') = yields (w_log w) ++ extra /\
                (length extra <= 1)%nat.
Proof.
  unfold infere_body, bind, lift, emit, seed_everything, raise, ret.
  intros H.
  destruct (fabric_device G) as [e|d].
  - inversion H. subst. exists []. rewrite app_nil_r. auto.
  - cbn [w_cache w_rng w_log] in H.
    destruct (_ <=? block_size M)%Z.
    + cbn [w_cache w_rng w_log] in H.
      match type of H with
      | context [sample_loop M lib tokenizer ?n ?e ?m ?t ?k ?r ?w0] =>
          destruct (sample_loop M lib tokenizer n e m t k r w0)
            as [w1 [e1|res]] eqn:Es
      end.
      * inversion H. subst. apply sample_loop_yields in Es. cbn [w_log] in Es.
        exists []. rewrite Es, !yields_app. simpl. rewrite !app_nil_r. auto.
      * apply sample_loop_yields in Es. cbn [w_log] in Es.
        rewrite !yields_app in Es. simpl in Es. rewrite !app_nil_r in Es.
        destruct res as [s|].
        -- destruct (num_samples =? 1)%Z.
           ++ inversion H. subst. exists []. rewrite app_nil_r. auto.
           ++ inversion H. subst. cbn [w_log]. exists [s].
              rewrite yields_app, Es. simpl. auto.
        -- inversion H. subst. exists []. rewrite app_nil_r. auto.
    + inversion H. subst. cbn [w_log]. exists [].
      rewrite yields_app. simpl. auto.
Qed.
End YieldFacts.

(* ================================================================== *)
(** ** [top_k] above the vocabulary size                               *)
(* ================================================================== *)

Lemma count_all (f : Q -> bool) (l : list Q) :
  (length l <= count f l)%nat -> Forall (fun x => f x = true) l.
Proof.
  unfold count. induction l as [|a r IH]; intros H; [constructor|].
  simpl in H. pose proof (filter_length_le f r) as Hle.
  destruct (f a) eqn:E; simpl in H.
  - constructor; [exact E | apply IH; lia].
  - lia.
Qed.

(** [min(top_k, logits.size(-1))]: a [top_k] of at least the vocabulary
    size masks nothing. *)
Lemma crop_clamped (logits : list Q) (k : Z) :
  logits <> [] -> (Z.of_nat (length logits) <= k)%Z ->
  crop_top_k (Some k) logits = crop_top_k None logits.
Proof.
  intros Hne Hk.
  assert (Hlen : (0 < length logits)%nat).
  { destruct logits; [contradiction | simpl; lia]. }
  destruct (@crop_some logits k) as [v [[_ [_ Hall]] ->]]; [lia | exact Hne |].
  rewrite Z.min_r, Nat2Z.id in Hall by lia.
  apply count_all in Hall. simpl. f_equal. unfold mask_below.
  apply map_ext_in. intros x Hx.
  rewrite Forall_forall in Hall. specialize (Hall x Hx). simpl in Hall.
  unfold Qltb. rewrite Hall. reflexivity.
Qed.

Lemma last_row_in (rows : list (list Q)) (row : list Q) :
  last_row rows = Val row -> In row rows.
Proof.
  unfold last_row. destruct (rev rows) as [|r rs] eqn:E; [discriminate|].
  intros H. inversion H. subst. apply in_rev. rewrite E. left. reflexivity.
Qed.

Section TopKOutOfRange.
Variable M : Model.
Variable lib : Torch.
Variable V : nat.
Hypothesis width : rows_of_width M V.
Hypothesis vocab : (0 < V)%nat.
Variables (max_seq_length : Z) (temperature : Q) (eos_id : option Z).
Variable k : Z.

Lemma sample_next_clamped (row : list Q) (g : rng lib) :
  length row = V -> (Z.of_nat V <= k)%Z ->
  sample_next lib temperature (Some k) row g
  = sample_next lib temperature None row g.
Proof.
  intros Hrow Hk. unfold sample_next. rewrite crop_clamped; [reflexivity| |].
  - destruct row; [simpl in Hrow; lia | discriminate].
  - rewrite length_map, Hrow. exact Hk.
Qed.

Lemma step_clamped (st : loop_state) (w : world (cache M) (rng lib)) :
  (Z.of_nat V <= k)%Z ->
  step M lib max_seq_length temperature (Some k) eos_id st w
  = step M lib max_seq_length temperature None eos_id st w.
Proof.
  intros Hk. unfold step, bind, lift, call_model, draw.
  destruct (index_select (idx st) (input_pos st)) as [e|x]; [reflexivity|].
  destruct (forward M (w_cache w) x max_seq_length (input_pos st))
    as [e|[c rows]] eqn:Ef; [reflexivity|].
  pose proof (width _ _ _ _ Ef) as HV.
  destruct (last_row rows) as [e|row] eqn:El; [reflexivity|].
  cbn [w_rng w_cache w_log].
  rewrite sample_next_clamped; [reflexivity | | exact Hk].
  rewrite Forall_forall in HV. apply HV, last_row_in, El.
Qed.

Lemma loop_clamped (n : nat) :
  (Z.of_nat V <= k)%Z ->
  forall st w,
    generate_loop M lib n max_seq_length temperature (Some k) eos_id st w
    = generate_loop M lib n max_seq_length temperature None eos_id st w.
Proof.
  intros Hk. induction n as [|n IH]; intros st w; simpl; [reflexivity|].
  unfold bind. rewrite (step_clamped st w Hk).
  destruct (step M lib max_seq_length temperature None eos_id st w)
    as [w1 [e|[st'|r]]]; [reflexivity | apply IH | reflexivity].
Qed.

End TopKOutOfRange.

(* ================================================================== *)
(** ** The early return on [eos_id]                                    *)
(* ================================================================== *)

(** The slice [idx[:input_pos]] of line 96 ends just before the slot the
    token was written to: a pass that returns gives back the buffer as it
    was before the pass, up to the write position [p], and nothing more. *)
Lemma return_stops_before_written_token (M : Model) (lib : Torch)
      msl temperature top_k eos_id st w w' r :
  step M lib msl temperature top_k eos_id st w = (w', Val (Return r)) ->
  exists p, advance (input_pos st) = [p] /\
            r = firstn p (idx st) /\ length r = p.
Proof.
  intros H. destruct (step_inv _ _ _ _ _ _ _ _ H) as [[e [_ He]]|[x [_ [_ Hc]]]];
    [discriminate|].
  destruct Hc as [p [t [Ha [Hp [-> _]]]]].
  exists p. split; [exact Ha|]. split; [apply firstn_set_nth|].
  rewrite length_firstn, set_nth_length. lia.
Qed.

(** When the first pass returns, the result is the prompt alone. *)
Lemma first_pass_return_is_prompt (M : Model) (lib : Torch)
      prompt mrt msl temperature top_k eos_id w w' r :
  step M lib msl temperature top_k eos_id
       (LoopState (fill_buffer lib prompt mrt) (seq 0 (length prompt))) w
  = (w', Val (Return r)) ->
  r = prompt.
Proof.
  intros H. apply return_stops_before_written_token in H.
  destruct H as [p [Ha [-> _]]]. simpl in Ha.
  destruct (Nat.eq_dec (length prompt) 0) as [E|E].
  - rewrite E in Ha. discriminate.
  - rewrite advance_seq in Ha by lia. inversion Ha. subst p.
    unfold fill_buffer. simpl. rewrite firstn_app, Nat.sub_diag, firstn_all.
    simpl. apply app_nil_r.
Qed.

(** Hence a call whose first draw is [eos_id] returns the prompt, of length
    T, without the token it has just written. *)
Lemma generate_eos_at_first_position (M : Model) (lib : Torch)
      prompt mrt msl temperature top_k eos_id w w' r :
  (Z.of_nat (length prompt) < mrt)%Z ->
  step M lib msl temperature top_k eos_id
       (LoopState (fill_buffer lib prompt mrt) (seq 0 (length prompt))) w
  = (w', Val (Return r)) ->
  generate M lib prompt mrt msl temperature top_k eos_id w = (w', Val prompt).
Proof.
  intros Hlt H. pose proof H as Hr.
  apply first_pass_return_is_prompt in Hr. subst r.
  unfold generate.
  destruct (Z.ltb_spec (Z.of_nat (length prompt)) mrt); [|lia].
  destruct (Z.to_nat (mrt - Z.of_nat (length prompt))) as [|n] eqn:En; [lia|].
  simpl. unfold bind. rewrite H. reflexivity.
Qed.

(** C1 (defect in the code).  The claim: when the scorer emits [eos_id] at
    the first sampled position of a prompt of length T, the result has
    length T + 1 and ends with [eos_id].  The code at prompt [5; 6; 7] with
    [eos_id = 2], [top_k = 1] and a scorer whose dominant logit is on token
    2: the first draw is token 2, the loop stops after one scorer call, and
    the result is [5; 6; 7], of length T = 3, whose last token is 7. *)
Theorem eos_at_first_position_is_dropped :
  let M := scripted_model 10 [2%nat] 9 in
  let w0 := fresh_world M ref_torch O 42%Z in
  let run := generate M ref_torch [5; 6; 7]%Z 6 6 1 (Some 1%Z) (Some 2%Z) w0 in
  (exists g, sample_next ref_torch 1 (Some 1%Z) (one_hot 10 2) 42%Z = Val (2%nat, g)) /\
  forward_positions (w_log (fst run)) = [[0; 1; 2]%nat] /\
  snd run = Val [5; 6; 7]%Z /\
  snd run <> Val [5; 6; 7; 2]%Z.
Proof.
  vm_compute. repeat split; [eexists; reflexivity | discriminate].
Qed.

(* ================================================================== *)
(** ** Several samples                                                 *)
(* ================================================================== *)

(** C2 (defect in the code).  The claim: with [num_samples > 1] one result
    per sample is produced, in order, each available as soon as it is
    generated.  The code at [num_samples = 2], prompt ["HI"], three new
    tokens: with the module's own globals the generator raises [NameError]
    and produces nothing; with [fabric] bound by hand both samples are
    generated and decoded (first "HIAFK", then "HIUPU"), the cache is reset
    after each, and a single text, the last sample, is yielded after the
    loop has finished. *)
Theorem two_samples_yield_only_the_last :
  let M := flat_model 26 in
  let w0 := fresh_world M ref_torch O 42%Z in
  let body G := infere_body G M ref_torch letter_tokenizer "HI" 2 3 None (8 # 10) in
  body module_globals w0 = (w0, Raised (NameError "fabric")) /\
  snd (body bound_globals w0) = Val None /\
  w_log (fst (body bound_globals w0))
  = [ EvEncode "HI"; EvSeed 1234;
      EvForward [7; 8]%Z 5 [0; 1]%nat; EvForward [0]%Z 5 [2]%nat;
      EvForward [5]%Z 5 [3]%nat;
      EvResetCache; EvDecode [7; 8; 0; 5; 10]%Z;
      EvForward [7; 8]%Z 5 [0; 1]%nat; EvForward [20]%Z 5 [2]%nat;
      EvForward [15]%Z 5 [3]%nat;
      EvResetCache; EvDecode [7; 8; 20; 15; 20]%Z;
      EvYield "HIUPU" ] /\
  decode letter_tokenizer [7; 8; 0; 5; 10]%Z = "HIAFK"%string /\
  yields (w_log (fst (body bound_globals w0))) = ["HIUPU"%string].
Proof.
  vm_compute. repeat split.
Qed.

(** C3.  Calling [infere] never gives a text: whatever the arguments, the
    value is a generator, and running its body in the module's own globals
    raises [NameError] for [fabric] at once, leaving the world as it was
    (nothing encoded, no scorer call, nothing yielded). *)
Theorem infere_gives_generator_that_raises_name_error :
  forall (M : Model) (lib : Torch) (tokenizer : Tokenizer) (prompt : string)
         (num_samples max_new_tokens : Z) (top_k : option Z) (temperature : Q),
    (forall s, infere module_globals M lib tokenizer prompt num_samples
                      max_new_tokens top_k temperature <> VStr s) /\
    exists body,
      infere module_globals M lib tokenizer prompt num_samples
             max_new_tokens top_k temperature = VGenerator body /\
      forall w, body w = (w, Raised (NameError "fabric")).
Proof.
  intros. split.
  - intros s. discriminate.
  - eexists. split; [reflexivity|]. intros w. reflexivity.
Qed.

(** With [fabric] bound and [num_samples = 1] the text is handed to
    [StopIteration], not yielded: iterating the generator delivers nothing. *)
Lemma single_sample_yields_nothing :
  let M := flat_model 26 in
  let w0 := fresh_world M ref_torch O 42%Z in
  let run := infere_body bound_globals M ref_torch letter_tokenizer "HI" 1 3 None
                         (8 # 10) w0 in
  snd run = Val (Some "HIAFK"%string) /\ yields (w_log (fst run)) = [].
Proof.
  vm_compute. split; reflexivity.
Qed.

(* ================================================================== *)
(** ** Length of the result                                            *)
(* ================================================================== *)

(** C4.  For a non-empty prompt of length T and N >= 1 new tokens, with
    [eos_id] unset, a non-zero temperature, [top_k] unset or positive, and a
    scorer that answers every call with rows over a non-empty vocabulary,
    [generate] returns a sequence of length exactly T + N. *)
Theorem generate_length_without_eos :
  forall (M : Model) (lib : Torch) (V : nat),
    TorchLaws lib -> well_shaped M V -> (0 < V)%nat ->
    forall (prompt : list Z) (N : nat) (max_seq_length : Z) (temperature : Q)
           (top_k : option Z) (w : world (cache M) (rng lib)),
      prompt <> [] -> (0 < N)%nat -> ~ temperature == 0 ->
      top_k_positive top_k ->
      exists w' r,
        generate M lib prompt (Z.of_nat (length prompt + N)) max_seq_length
                 temperature top_k None w = (w', Val r) /\
        length r = (length prompt + N)%nat.
Proof.
  intros M lib V laws shaped vocab prompt N msl temperature top_k w
         Hp HN Ht Hk.
  assert (HT : (0 < length prompt)%nat).
  { destruct prompt; [contradiction | simpl; lia]. }
  unfold generate.
  destruct (Z.ltb_spec (Z.of_nat (length prompt))
                       (Z.of_nat (length prompt + N))); [|lia].
  assert (Hlen : length (fill_buffer lib prompt (Z.of_nat (length prompt + N)))
                 = (length prompt + N)%nat).
  { rewrite fill_buffer_length by lia. apply Nat2Z.id. }
  replace (Z.to_nat (Z.of_nat (length prompt + N) - Z.of_nat (length prompt)))
    with N by lia.
  destruct (@loop_total M lib V laws shaped vocab msl temperature top_k Ht Hk N
              (LoopState (fill_buffer lib prompt (Z.of_nat (length prompt + N)))
                         (seq 0 (length prompt)))
              w (length prompt)) as [w' [r [Hg Hr]]].
  - simpl. rewrite Hlen. apply Forall_forall. intros p Hin.
    apply in_seq in Hin. lia.
  - simpl. apply advance_seq, HT.
  - simpl. rewrite Hlen. lia.
  - exists w', r. split; [exact Hg|]. rewrite Hr. exact Hlen.
Qed.

(** The same length without any assumption on the scorer or the tensor
    library, for the runs that return. *)
Lemma generate_length_if_returns (M : Model) (lib : Torch) prompt mrt msl
      temperature top_k w w' r :
  generate M lib prompt mrt msl temperature top_k None w = (w', Val r) ->
  Z.of_nat (length r) = mrt.
Proof.
  unfold generate. intros H.
  destruct (Z.ltb_spec (Z.of_nat (length prompt)) mrt) as [Hlt|Hge];
    [|discriminate].
  apply loop_length_no_eos in H. simpl in H.
  rewrite fill_buffer_length in H by exact Hlt. lia.
Qed.

Lemma generate_length_without_eos_witness :
  exists w' r,
    generate (scripted_model 10 [] 9) ref_torch [5; 6; 7]%Z
             (Z.of_nat (length [5; 6; 7]%Z + 3)) 6 1 (Some 1%Z) None
             (fresh_world (scripted_model 10 [] 9) ref_torch O 42%Z)
    = (w', Val r) /\
    length r = (length [5; 6; 7]%Z + 3)%nat.
Proof.
  apply (@generate_length_without_eos (scripted_model 10 [] 9) ref_torch 10%nat
           ref_torch_laws (@scripted_model_shaped 10 [] 9)).
  - lia.
  - discriminate.
  - lia.
  - intro H. discriminate H.
  - simpl. lia.
Defined.

(** C5.  Whatever way [generate] returns (early on [eos_id] or after the
    last pass), the returned sequence is no longer than
    [max_returned_tokens]. *)
Theorem generate_within_capacity :
  forall (M : Model) (lib : Torch) (prompt : list Z)
         (max_returned_tokens max_seq_length : Z) (temperature : Q)
         (top_k eos_id : option Z) (w w' : world (cache M) (rng lib))
         (r : list Z),
    generate M lib prompt max_returned_tokens max_seq_length temperature
             top_k eos_id w = (w', Val r) ->
    (Z.of_nat (length r) <= max_returned_tokens)%Z.
Proof.
  intros M lib prompt mrt msl temperature top_k eos_id w w' r H.
  unfold generate in H.
  destruct (Z.ltb_spec (Z.of_nat (length prompt)) mrt) as [Hlt|Hge].
  - apply loop_length_le in H. simpl in H.
    rewrite fill_buffer_length in H by exact Hlt. lia.
  - discriminate.
Qed.

Lemma generate_within_capacity_witness :
  let M := scripted_model 10 [9; 2]%nat 9 in
  let w' := World (C := nat) (G := Z) 2%nat 1116302264%Z
                  [EvForward [5; 6; 7]%Z 6 [0; 1; 2]%nat;
                   EvForward [9]%Z 6 [3]%nat] in
  generate M ref_torch [5; 6; 7]%Z 6 6 1 (Some 1%Z) (Some 2%Z)
           (fresh_world M ref_torch O 42%Z) = (w', Val [5; 6; 7; 9]%Z) /\
  (Z.of_nat (length [5; 6; 7; 9]%Z) <= 6)%Z.
Proof.
  intros M w'.
  assert (H : generate M ref_torch [5; 6; 7]%Z 6 6 1 (Some 1%Z) (Some 2%Z)
                       (fresh_world M ref_torch O 42%Z)
              = (w', Val [5; 6; 7; 9]%Z)) by (vm_compute; reflexivity).
  split; [exact H | exact (generate_within_capacity _ _ _ _ _ _ _ _ _ H)].
Defined.

(* ================================================================== *)
(** ** Positions handed to the scorer                                  *)
(* ================================================================== *)


(* ================================================================== *)
(** ** The sampling policy                                             *)
(* ================================================================== *)

(** C6.  For logits scaled by the temperature and [top_k = k] with
    [1 <= k <= vocabulary size]: the threshold is the k-th largest logit;
    the crop turns exactly the logits strictly below it into [-inf] and
    keeps the others (ties included) unchanged, so at least [k] entries stay
    finite; after softmax every entry below the threshold has probability
    zero, and the token drawn is never one of them. *)
Theorem top_k_masks_below_kth_largest :
  forall (lib : Torch), TorchLaws lib ->
  forall (row : list Q) (temperature : Q) (k : Z),
    (1 <= k <= Z.of_nat (length row))%Z ->
    let logits := map (fun l => l / temperature) row in
    exists v cropped,
      kth_largest (Z.to_nat k) v logits /\
      crop_top_k (Some k) logits = Val cropped /\
      length cropped = length logits /\
      (forall i x, nth_error logits i = Some x ->
         (x < v -> nth_error cropped i = Some NegInf) /\
         (v <= x -> nth_error cropped i = Some (Fin x))) /\
      (Z.to_nat k <= length (filter is_fin cropped))%nat /\
      (forall i x, nth_error logits i = Some x -> x < v ->
         exists p, nth_error (softmax lib cropped) i = Some p /\ p == 0) /\
      (forall g i g',
         sample_next lib temperature (Some k) row g = Val (i, g') ->
         exists x, nth_error logits i = Some x /\ v <= x).
Proof.
  intros lib laws row temperature k Hk logits.
  assert (Hlen : length logits = length row) by apply length_map.
  assert (Hne : logits <> []).
  { intros E. rewrite E in Hlen. simpl in Hlen. lia. }
  destruct (@crop_some logits k) as [v [Hv Hc]]; [lia | exact Hne |].
  rewrite Hlen, Z.min_l in Hv by lia.
  exists v, (mask_below v logits).
  assert (Hnth : forall i x, nth_error logits i = Some x ->
             (x < v -> nth_error (mask_below v logits) i = Some NegInf) /\
             (v <= x -> nth_error (mask_below v logits) i = Some (Fin x))).
  { intros i x Hx. apply mask_below_nth, Hx. }
  repeat split.
  - apply Hv.
  - apply Hv.
  - apply Hv.
  - exact Hc.
  - apply mask_below_length.
  - apply (Hnth i x H).
  - apply (Hnth i x H).
  - rewrite mask_below_finite. apply Hv.
  - intros i x Hx Hlt. apply softmax_masked. apply (Hnth i x Hx), Hlt.
  - intros g i g' Hs. unfold sample_next in Hs. fold logits in Hs.
    rewrite Hc in Hs.
    destruct (Qeq_bool temperature 0); [discriminate|].
    destruct (draw_not_masked laws _ _ Hs) as [q Hq].
    destruct (nth_error logits i) as [x|] eqn:Ex.
    + exists x. split; [reflexivity|].
      destruct (Qlt_le_dec x v) as [Hlt|Hle]; [|exact Hle].
      destruct (Hnth i x Ex) as [Hm _]. rewrite (Hm Hlt) in Hq. discriminate.
    + apply nth_error_None in Ex. rewrite <- (mask_below_length v) in Ex.
      apply nth_error_None in Ex. congruence.
Qed.

Lemma top_k_masks_below_kth_largest_witness :
  let logits := map (fun l => l / (8 # 10)) [1; 3; 2; 3; 0] in
  exists v cropped,
    kth_largest (Z.to_nat 2) v logits /\
    crop_top_k (Some 2%Z) logits = Val cropped /\
    length cropped = length logits /\
    (forall i x, nth_error logits i = Some x ->
       (x < v -> nth_error cropped i = Some NegInf) /\
       (v <= x -> nth_error cropped i = Some (Fin x))) /\
    (Z.to_nat 2 <= length (filter is_fin cropped))%nat /\
    (forall i x, nth_error logits i = Some x -> x < v ->
       exists p, nth_error (softmax ref_torch cropped) i = Some p /\ p == 0) /\
    (forall g i g',
       sample_next ref_torch (8 # 10) (Some 2%Z) [1; 3; 2; 3; 0] g = Val (i, g') ->
       exists x, nth_error logits i = Some x /\ v <= x).
Proof.
  apply (@top_k_masks_below_kth_largest ref_torch ref_torch_laws
           [1; 3; 2; 3; 0] (8 # 10) 2%Z).
  simpl. lia.
Defined.

(** C9.  With [top_k] unset and a positive temperature the draw made by a
    pass of [generate] is the draw from the plain softmax of the logits
    scaled by 1/temperature: the distribution covers the whole vocabulary
    and gives every token a positive probability. *)
Theorem sampling_without_top_k_is_plain_softmax :
  forall (lib : Torch), TorchLaws lib ->
  forall (temperature : Q) (row : list Q) (g : rng lib),
    0 < temperature ->
    let probs := plain_softmax lib (map (fun l => l * / temperature) row) in
    sample_next lib temperature None row g
    = plain_softmax_sample lib temperature row g /\
    length probs = length row /\
    (forall p, In p probs -> 0 < p).
Proof.
  intros lib laws temperature row g Ht probs.
  assert (Hnz : ~ temperature == 0).
  { intros E. rewrite E in Ht. exact (Qlt_irrefl _ Ht). }
  split; [|split].
  - unfold sample_next, plain_softmax_sample, plain_softmax, softmax.
    simpl. rewrite (Qeq_bool_nonzero Hnz). f_equal.
    rewrite !map_map. reflexivity.
  - unfold probs, plain_softmax. rewrite !length_map. reflexivity.
  - intros p Hp. unfold probs, plain_softmax in Hp.
    apply in_map_iff in Hp. destruct Hp as [x [<- Hx]].
    apply Qdiv_pos; [apply (texp_pos laws)|].
    apply Qsum_pos.
    + intros y Hy. apply in_map_iff in Hy. destruct Hy as [z [<- _]].
      apply Qlt_le_weak, (texp_pos laws).
    + exists (texp lib x). split; [apply in_map, Hx | apply (texp_pos laws)].
Qed.

Lemma sampling_without_top_k_is_plain_softmax_witness :
  let probs := plain_softmax ref_torch (map (fun l => l * / (8 # 10)) [1; 3; 2]) in
  sample_next ref_torch (8 # 10) None [1; 3; 2] 42%Z
  = plain_softmax_sample ref_torch (8 # 10) [1; 3; 2] 42%Z /\
  length probs = length [1; 3; 2] /\
  (forall p, In p probs -> 0 < p).
Proof.
  apply (@sampling_without_top_k_is_plain_softmax ref_torch ref_torch_laws
           (8 # 10) [1; 3; 2] 42%Z).
  reflexivity.
Defined.

(* ================================================================== *)
(** ** [top_k] is not validated up front                               *)
(* ================================================================== *)

(** C7 fails on the code as stated.  With a vocabulary of 10 tokens,
    [top_k = 11] does not fail at all: the run returns [5; 6; 7; 0; 3; 9].
    [top_k = 0] does fail, but not up front: it fails inside the first
    pass, when the scorer has been called and its cache has changed. *)
Lemma bad_top_k_is_not_rejected_up_front :
  let M := scripted_model 10 [] 9 in
  let w0 := fresh_world M ref_torch O 42%Z in
  let run k := generate M ref_torch [5; 6; 7]%Z 6 6 1 (Some k) None w0 in
  ~ fails_before_loop w0 (run 11%Z) /\
  snd (run 11%Z) = Val [5; 6; 7; 0; 3; 9]%Z /\
  ~ fails_before_loop w0 (run 0%Z) /\
  run 0%Z = (World (C := nat) (G := Z) 1%nat 42%Z
                   [EvForward [5; 6; 7]%Z 6 [0; 1; 2]%nat],
             Raised IndexError).
Proof.
  intros M w0 run.
  assert (H11 : snd (run 11%Z) = Val [5; 6; 7; 0; 3; 9]%Z)
    by (vm_compute; reflexivity).
  assert (H0 : run 0%Z = (World (C := nat) (G := Z) 1%nat 42%Z
                                [EvForward [5; 6; 7]%Z 6 [0; 1; 2]%nat],
                          Raised IndexError))
    by (vm_compute; reflexivity).
  split; [|split; [|split]].
  - intros [[e He] _]. rewrite H11 in He. discriminate.
  - exact H11.
  - intros [_ Hw]. rewrite H0 in Hw. discriminate.
  - exact H0.
Qed.

(** C7 as amended.  For a scorer whose logit rows are V > 0 wide, a
    [top_k] above V is not rejected: [min(top_k, logits.size(-1))] clamps
    it, no logit of a row is masked, and the call is the same call with
    [top_k] unset: the same result or the same exception, the same scorer
    calls, the same draws. *)
Theorem top_k_above_vocabulary_is_clamped :
  forall (M : Model) (lib : Torch) (V : nat),
    rows_of_width M V -> (0 < V)%nat ->
    forall (k : Z), (Z.of_nat V < k)%Z ->
      (forall (logits : list Q),
          length logits = V ->
          crop_top_k (Some k) logits = Val (map Fin logits)) /\
      (forall (prompt : list Z) (max_returned_tokens max_seq_length : Z)
              (temperature : Q) (eos_id : option Z)
              (w : world (cache M) (rng lib)),
          generate M lib prompt max_returned_tokens max_seq_length temperature
                   (Some k) eos_id w
          = generate M lib prompt max_returned_tokens max_seq_length temperature
                     None eos_id w).
Proof.
  intros M lib V width vocab k Hk. split.
  - intros logits Hlen. rewrite crop_clamped; [reflexivity | | lia].
    destruct logits; [simpl in Hlen; lia | discriminate].
  - intros prompt mrt msl temperature eos_id w. unfold generate.
    destruct (Z.of_nat (length prompt) <? mrt)%Z; [|reflexivity].
    apply loop_clamped with (V := V); [exact width | exact vocab | lia].
Qed.

Lemma top_k_above_vocabulary_is_clamped_witness :
  let M := scripted_model 10 [] 9 in
  let w0 := fresh_world M ref_torch O 42%Z in
  crop_top_k (Some 11%Z) (one_hot 10 9) = Val (map Fin (one_hot 10 9)) /\
  generate M ref_torch [5; 6; 7]%Z 6 6 1 (Some 11%Z) None w0
  = generate M ref_torch [5; 6; 7]%Z 6 6 1 None None w0.
Proof.
  intros M w0.
  destruct (@top_k_above_vocabulary_is_clamped M ref_torch 10%nat
              (@scripted_model_width 10 [] 9) ltac:(lia) 11%Z ltac:(simpl; lia))
    as [Hcrop Hrun].
  split; [apply Hcrop; reflexivity | apply Hrun].
Defined.

(* ================================================================== *)
(** ** Reproducibility                                                 *)
(* ================================================================== *)



Section SeededSamples.
Variables M1 M2 : Model.
Variable lib : Torch.
Variable tokenizer : Tokenizer.
Variable R : cache M1 -> cache M2 -> Prop.
Hypothesis sim : same_logits M1 M2 R.
Hypothesis reset_sim :
  forall c1 c2, R c1 c2 -> R (reset_cache M1 c1) (reset_cache M2 c2).

Lemma sample_loop_sim (n : nat) :
  forall encoded mrt temperature top_k res w1 w2,
    world_rel R w1 w2 ->
    same_run R
      (sample_loop M1 lib tokenizer n encoded mrt temperature top_k res w1)
      (sample_loop M2 lib tokenizer n encoded mrt temperature top_k res w2).
Proof.
  induction n as [|n IH]; intros encoded mrt temperature top_k res w1 w2 Hw;
    simpl.
  - split; [reflexivity | exact Hw].
  - unfold bind.
    pose proof (@generate_sim M1 M2 lib R sim mrt temperature top_k None
                  encoded mrt w1 w2 Hw) as Hs.
    destruct (generate M1 lib encoded mrt mrt temperature top_k None w1)
      as [w1' o1];
      destruct (generate M2 lib encoded mrt mrt temperature top_k None w2)
        as [w2' o2].
    destruct Hs as [Ho [Hc [Hg Hl]]]. simpl in Ho, Hc, Hg, Hl. subst o2.
    destruct o1 as [e|y].
    + split; [reflexivity|]. repeat split; assumption.
    + unfold call_reset_cache, emit. cbn [w_cache w_rng w_log].
      apply IH. repeat split; cbn [w_cache w_rng w_log].
      * apply reset_sim, Hc.
      * exact Hg.
      * rewrite Hl. reflexivity.
Qed.

(** X15.  [L.seed_everything(1234)] makes [infere] independent of the state
    the random generator was in before the call: two runs on the same
    arguments, against scorers that give identical logits from related
    caches (also after a reset) and have the same block size, end the same
    way and make the same calls, whatever the two generator states were. *)
Lemma infere_body_seeded (G : globals) :
  block_size M1 = block_size M2 ->
  forall prompt num_samples max_new_tokens top_k temperature c1 c2 g1 g2 log,
    R c1 c2 ->
    let run1 := infere_body G M1 lib tokenizer prompt num_samples
                            max_new_tokens top_k temperature (World c1 g1 log) in
    let run2 := infere_body G M2 lib tokenizer prompt num_samples
                            max_new_tokens top_k temperature (World c2 g2 log) in
    snd run1 = snd run2 /\ w_log (fst run1) = w_log (fst run2).
Proof.
  intros Hb prompt num_samples max_new_tokens top_k temperature c1 c2 g1 g2
         log HR run1 run2.
  subst run1 run2.
  unfold infere_body, bind, lift, emit, seed_everything, raise, ret.
  destruct (fabric_device G) as [e|d]; [split; reflexivity|].
  cbn [w_cache w_rng w_log]. rewrite <- Hb.
  destruct (_ <=? block_size M1)%Z; [|split; reflexivity].
  cbn [w_cache w_rng w_log].
  match goal with
  | |- context [sample_loop M1 lib tokenizer ?n ?e ?m ?t ?k ?r ?w1] =>
      match goal with
      | |- context [sample_loop M2 lib tokenizer n e m t k r ?w2] =>
          pose proof (@sample_loop_sim n e m t k r w1 w2) as Hs;
          destruct (sample_loop M1 lib tokenizer n e m t k r w1) as [w1' o1];
          destruct (sample_loop M2 lib tokenizer n e m t k r w2) as [w2' o2]
      end
  end.
  destruct Hs as [Ho [_ [_ Hl]]].
  { repeat split; cbn [w_cache w_rng w_log]; first [exact HR | reflexivity]. }
  simpl in Ho, Hl. subst o2.
  destruct o1 as [e|[s|]]; simpl; try (split; [reflexivity | exact Hl]).
  destruct (num_samples =? 1)%Z; simpl.
  - split; [reflexivity | exact Hl].
  - split; [reflexivity | rewrite Hl; reflexivity].
Qed.
End SeededSamples.

(* ================================================================== *)
(** ** More on one pass of the loop                                    *)
(* ================================================================== *)

Lemma nth_error_set_nth_same (l : list Z) (p : nat) (t : Z) :
  (p < length l)%nat -> nth_error (set_nth l p t) p = Some t.
Proof.
  revert p. induction l as [|a r IH]; intros p Hp; simpl in *; [lia|].
  destruct p; simpl; [reflexivity | apply IH; lia].
Qed.

Lemma firstn_S_set_nth (l : list Z) (p : nat) (t : Z) :
  (p < length l)%nat ->
  firstn (S p) (set_nth l p t) = firstn p l ++ [t].
Proof.
  revert p. induction l as [|a r IH]; intros p Hp; simpl in *; [lia|].
  destruct p; simpl; [reflexivity|]. f_equal. apply IH. lia.
Qed.

Lemma index_select_range (l : list Z) (pos : list nat) (x : list Z) :
  index_select l pos = Val x -> Forall (fun p => (p < length l)%nat) pos.
Proof.
  revert x. induction pos as [|p ps IH]; intros x H; [constructor|].
  simpl in H. destruct (nth_error l p) eqn:E; [|discriminate].
  destruct (index_select l ps) as [e|ts]; [discriminate|].
  constructor; [|apply (IH ts eq_refl)].
  apply nth_error_Some. congruence.
Qed.

Lemma skipn_nth_error (l : list Z) (k : nat) (t : Z) :
  nth_error l k = Some t -> skipn k l = t :: skipn (S k) l.
Proof.
  revert k. induction l as [|a r IH]; intros k E.
  - destruct k; discriminate.
  - destruct k; simpl in *; [congruence | apply IH, E].
Qed.

Lemma index_select_seq_from (l : list Z) (n : nat) :
  forall k, (k + n <= length l)%nat ->
            index_select l (seq k n) = Val (firstn n (skipn k l)).
Proof.
  induction n as [|n IH]; intros k Hk; [reflexivity|].
  simpl. destruct (nth_error l k) as [t|] eqn:E.
  - rewrite IH by lia. rewrite (skipn_nth_error _ _ E). reflexivity.
  - apply nth_error_None in E. lia.
Qed.

Lemma index_select_seq (l : list Z) (n : nat) :
  (n <= length l)%nat -> index_select l (seq 0 n) = Val (firstn n l).
Proof. intros H. apply (index_select_seq_from l n O). lia. Qed.

Lemma index_select_one (l : list Z) (p : nat) (t : Z) :
  nth_error l p = Some t -> index_select l [p] = Val [t].
Proof. intros H. simpl. rewrite H. reflexivity. Qed.

Lemma crop_length (top_k : option Z) (logits : list Q) (cropped : list xlogit) :
  crop_top_k top_k logits = Val cropped -> length cropped = length logits.
Proof.
  unfold crop_top_k. destruct top_k as [k|].
  - destruct (topk logits _) as [e|v]; [discriminate|].
    destruct (last_value v) as [e|t]; [discriminate|].
    intros H. inversion H. apply mask_below_length.
  - intros H. inversion H. apply length_map.
Qed.

Section StepDetails.
Variable M : Model.
Variable lib : Torch.
Variables (max_seq_length : Z) (temperature : Q) (top_k eos_id : option Z).

(** A pass that does not raise, in full: the window was built, the scorer
    answered, index [i] was drawn from its last row, and [i], converted to
    the dtype of the buffer, was written at the advanced position [p]. *)
Lemma step_val (st : loop_state) (w w' : world (cache M) (rng lib))
      (c : control) :
  step M lib max_seq_length temperature top_k eos_id st w = (w', Val c) ->
  exists x c1 rows row i g' p,
    index_select (idx st) (input_pos st) = Val x /\ x <> [] /\
    forward M (w_cache w) x max_seq_length (input_pos st) = Val (c1, rows) /\
    last_row rows = Val row /\
    sample_next lib temperature top_k row (w_rng w) = Val (i, g') /\
    advance (input_pos st) = [p] /\ (p < length (idx st))%nat /\
    w' = World c1 g' (w_log w ++ [EvForward x max_seq_length (input_pos st)]) /\
    match c with
    | Continue st' =>
        st' = LoopState (set_nth (idx st) p
                                 (to_dtype (idx_dtype lib) (Z.of_nat i))) [p] /\
        eos_hit (to_dtype (idx_dtype lib) (Z.of_nat i)) eos_id = false
    | Return r =>
        r = firstn p (idx st) /\
        eos_hit (to_dtype (idx_dtype lib) (Z.of_nat i)) eos_id = true
    end.
Proof.
  unfold step, bind, lift, call_model, draw, ret. intros H.
  destruct (index_select (idx st) (input_pos st)) as [e|x] eqn:Ex;
    [discriminate|].
  destruct (forward M (w_cache w) x max_seq_length (input_pos st))
    as [e|[c1 rows]] eqn:Ef; [discriminate|].
  destruct (last_row rows) as [e|row] eqn:Er; [discriminate|].
  cbn [w_rng w_cache w_log] in H.
  destruct (sample_next lib temperature top_k row (w_rng w))
    as [e|[i g]] eqn:Es; [discriminate|].
  unfold index_copy in H.
  destruct (advance (input_pos st)) as [|p [|p' ps]] eqn:Ea;
    [discriminate| |discriminate].
  destruct (p <? length (idx st))%nat eqn:Ep; [|discriminate].
  apply Nat.ltb_lt in Ep.
  assert (Hx : x <> []).
  { intros ->. apply index_select_length in Ex.
    destruct (input_pos st); [discriminate Ea | discriminate Ex]. }
  exists x, c1, rows, row, i, g, p.
  repeat (split; [first [reflexivity | assumption]|]).
  destruct (eos_hit (to_dtype (idx_dtype lib) (Z.of_nat i)) eos_id) eqn:Ee.
  - cbn in H. inversion H. subst.
    repeat split. apply firstn_set_nth.
  - inversion H. subst. repeat split.
Qed.
End StepDetails.

(* ================================================================== *)
(** ** What a returned sequence is made of                             *)
(* ================================================================== *)

Lemma forward_windows_app (a b : list event) :
  forward_windows (a ++ b) = forward_windows a ++ forward_windows b.
Proof.
  induction a as [|e r IH]; simpl; [reflexivity|].
  destruct e; simpl; rewrite IH; reflexivity.
Qed.

Lemma concat_singletons (x0 : list Z) (l : list Z) :
  concat (x0 :: map (fun t => [t]) l) = x0 ++ l.
Proof.
  simpl. f_equal. induction l as [|a r IH]; simpl; [reflexivity|].
  rewrite IH. reflexivity.
Qed.

Lemma firstn_fill_buffer (lib : Torch) (prompt : list Z) (mrt : Z) :
  firstn (length prompt) (fill_buffer lib prompt mrt) = prompt.
Proof.
  unfold fill_buffer. simpl. rewrite firstn_app, Nat.sub_diag, firstn_all.
  simpl. apply app_nil_r.
Qed.

Section KeptTokens.
Variable M : Model.
Variable lib : Torch.
Variables (max_seq_length : Z) (temperature : Q) (top_k eos_id : option Z).

(** [P] holds of every token a pass writes before going on. *)
Variable P : Z -> Prop.
Hypothesis kept :
  forall st w w' st' q,
    step M lib max_seq_length temperature top_k eos_id st w
    = (w', Val (Continue st')) ->
    advance (input_pos st) = [q] ->
    exists t, st' = LoopState (set_nth (idx st) q t) [q] /\ P t.

(** A loop that returns gives back the buffer up to the first write
    position followed by the tokens it kept; the scorer saw the first window
    and then each kept token once, except the very last of a full run. *)
Lemma loop_kept (n : nat) :
  forall st w w' r q x0,
    advance (input_pos st) = [q] ->
    (q + n = length (idx st))%nat ->
    index_select (idx st) (input_pos st) = Val x0 ->
    generate_loop M lib n max_seq_length temperature top_k eos_id st w
    = (w', Val r) ->
    exists ts,
      r = firstn q (idx st) ++ ts /\ Forall P ts /\ (length ts <= n)%nat /\
      forward_windows (w_log w')
      = forward_windows (w_log w)
        ++ match n with
           | O => []
           | S _ => x0 :: map (fun t => [t])
                              (if (length ts <? n)%nat then ts else removelast ts)
           end.
Proof.
  induction n as [|n IH]; intros st w w' r q x0 Ha Hq Hx H; simpl in H.
  - inversion H. subst. exists []. rewrite Nat.add_0_r in Hq.
    rewrite Hq, firstn_all, !app_nil_r. auto.
  - unfold bind in H.
    destruct (step M lib max_seq_length temperature top_k eos_id st w)
      as [w1 [e|c]] eqn:Es; [discriminate|].
    destruct (step_val _ _ _ _ _ _ _ _ Es)
      as [x [c1 [rows [row [i [g' [p [Hx' [_ [_ [_ [_ [Ha' [Hp [Hw1 Hc]]]]]]]]]]]]]]].
    rewrite Hx in Hx'. inversion Hx'. subst x. clear Hx'.
    rewrite Ha in Ha'. inversion Ha'. subst p. clear Ha'.
    assert (Hlog : forward_windows (w_log w1)
                   = forward_windows (w_log w) ++ [x0]).
    { rewrite Hw1. cbn [w_log]. rewrite forward_windows_app. reflexivity. }
    destruct c as [st'|r'].
    + destruct (kept _ _ Es Ha) as [t [-> Pt]].
      destruct (IH (LoopState (set_nth (idx st) q t) [q]) w1 w' r (S q) [t]
                  eq_refl) as [ts [Hr [HP [Hlen Hws]]]].
      * simpl. rewrite set_nth_length. lia.
      * simpl. rewrite nth_error_set_nth_same by exact Hp. reflexivity.
      * exact H.
      * cbn [idx] in Hr. rewrite firstn_S_set_nth in Hr by exact Hp.
        rewrite <- app_assoc in Hr. simpl app in Hr.
        exists (t :: ts). split; [exact Hr|]. split; [constructor; assumption|].
        split; [simpl; lia|].
        rewrite Hws, Hlog, <- app_assoc. f_equal. simpl app.
        destruct n as [|m].
        -- destruct ts; [reflexivity | simpl in Hlen; lia].
        -- change (length (t :: ts) <? S (S m))%nat
             with (length ts <? S m)%nat.
           destruct (Nat.ltb_spec (length ts) (S m)); [reflexivity|].
           destruct ts as [|a l]; [simpl in *; lia | reflexivity].
    + destruct Hc as [-> _]. inversion H. subst.
      exists []. rewrite app_nil_r. repeat split; [constructor | simpl; lia |].
      rewrite Hlog. reflexivity.
Qed.

Lemma generate_kept (prompt : list Z) (mrt : Z)
      (w w' : world (cache M) (rng lib)) (r : list Z) :
  generate M lib prompt mrt max_seq_length temperature top_k eos_id w
  = (w', Val r) ->
  (Z.of_nat (length prompt) < mrt)%Z /\ prompt <> [] /\
  exists ts,
    r = prompt ++ ts /\ Forall P ts /\
    (Z.of_nat (length prompt + length ts) <= mrt)%Z /\
    forward_windows (w_log w')
    = forward_windows (w_log w)
      ++ prompt :: map (fun t => [t])
                       (if (Z.of_nat (length prompt + length ts) <? mrt)%Z
                        then ts else removelast ts).
Proof.
  unfold generate. intros H.
  destruct (Z.ltb_spec (Z.of_nat (length prompt)) mrt) as [Hlt|Hge];
    [|discriminate].
  split; [exact Hlt|].
  destruct (Z.to_nat (mrt - Z.of_nat (length prompt))) as [|n] eqn:En; [lia|].
  assert (Hne : prompt <> []).
  { intros ->. simpl in H. unfold bind in H.
    destruct (step M lib max_seq_length temperature top_k eos_id
                (LoopState (fill_buffer lib [] mrt) []) w)
      as [w1 [e|c]] eqn:Es; [discriminate|].
    destruct (step_val _ _ _ _ _ _ _ _ Es)
      as [x [c1 [rows [row [i [g' [p [_ [_ [_ [_ [_ [Ha _]]]]]]]]]]]]].
    discriminate Ha. }
  split; [exact Hne|].
  assert (HT : (0 < length prompt)%nat).
  { destruct prompt; [contradiction | simpl; lia]. }
  destruct (@loop_kept (S n)
              (LoopState (fill_buffer lib prompt mrt) (seq 0 (length prompt)))
              w w' r (length prompt) prompt)
    as [ts [Hr [HP [Hlen Hws]]]]; [| | |exact H|].
  - simpl. apply advance_seq, HT.
  - simpl. rewrite fill_buffer_length by exact Hlt. lia.
  - simpl. rewrite index_select_seq.
    + rewrite firstn_fill_buffer. reflexivity.
    + rewrite fill_buffer_length by exact Hlt. lia.
  - simpl idx in Hr. rewrite firstn_fill_buffer in Hr.
    exists ts. split; [exact Hr|]. split; [exact HP|]. split; [lia|].
    rewrite Hws. f_equal. f_equal. f_equal.
    destruct (Nat.ltb_spec (length ts) (S n));
      destruct (Z.ltb_spec (Z.of_nat (length prompt + length ts)) mrt);
      try reflexivity; lia.
Qed.
End KeptTokens.

Lemma kept_any (M : Model) (lib : Torch) msl temperature top_k eos_id
      st w w' st' q :
  step M lib msl temperature top_k eos_id st w = (w', Val (Continue st')) ->
  advance (input_pos st) = [q] ->
  exists t, st' = LoopState (set_nth (idx st) q t) [q] /\ True.
Proof.
  intros Hs Ha.
  destruct (step_val _ _ _ _ _ _ _ _ Hs)
    as (x & c1 & rows & row & i & g' & p & _ & _ & _ & _ & _ & Ha' & _ & _ & Hc).
  destruct Hc as [-> _].
  rewrite Ha in Ha'. inversion Ha'. subst p. eexists. split; reflexivity.
Qed.

Lemma kept_not_eos (M : Model) (lib : Torch) msl temperature top_k eos_id
      st w w' st' q :
  step M lib msl temperature top_k eos_id st w = (w', Val (Continue st')) ->
  advance (input_pos st) = [q] ->
  exists t, st' = LoopState (set_nth (idx st) q t) [q] /\
            eos_hit t eos_id = false.
Proof.
  intros Hs Ha.
  destruct (step_val _ _ _ _ _ _ _ _ Hs)
    as (x & c1 & rows & row & i & g' & p & _ & _ & _ & _ & _ & Ha' & _ & _ & Hc).
  destruct Hc as [-> He].
  rewrite Ha in Ha'. inversion Ha'. subst p. eexists. split; [reflexivity|].
  exact He.
Qed.

Lemma sample_next_in_range (lib : Torch) (laws : TorchLaws lib)
      temperature top_k row g i g' :
  sample_next lib temperature top_k row g = Val (i, g') ->
  (i < length row)%nat.
Proof.
  unfold sample_next. intros H.
  destruct (crop_top_k top_k (map (fun l => l / temperature) row))
    as [e|cropped] eqn:Ec; [discriminate|].
  destruct (Qeq_bool temperature 0); [discriminate|].
  destruct (multinomial_support laws _ _ H) as [x [Hx _]].
  assert (Hi : (i < length (softmax lib cropped))%nat).
  { apply nth_error_Some. congruence. }
  rewrite softmax_length, (crop_length _ _ Ec), length_map in Hi. exact Hi.
Qed.

(** A value the dtype holds is converted to itself. *)
Lemma to_dtype_small (d : int_dtype) (z : Z) :
  (0 <= z <= dtype_max d)%Z -> to_dtype d z = z.
Proof.
  intros H. unfold to_dtype.
  destruct d; cbn in H |- *; rewrite Z.mod_small by lia;
    try reflexivity;
    match goal with
    | |- (if (?a <=? z)%Z then _ else _) = _ =>
        destruct (Z.leb_spec a z); [lia | reflexivity]
    end.
Qed.

Lemma kept_in_vocabulary (M : Model) (lib : Torch) (V : nat)
      (laws : TorchLaws lib) (width : rows_of_width M V)
      (fits : (Z.of_nat V <= dtype_max (idx_dtype lib) + 1)%Z)
      msl temperature top_k eos_id st w w' st' q :
  step M lib msl temperature top_k eos_id st w = (w', Val (Continue st')) ->
  advance (input_pos st) = [q] ->
  exists t, st' = LoopState (set_nth (idx st) q t) [q] /\
            (0 <= t < Z.of_nat V)%Z.
Proof.
  intros Hs Ha.
  destruct (step_val _ _ _ _ _ _ _ _ Hs)
    as (x & c1 & rows & row & i & g' & p & _ & _ & Hf & Hl & Hd & Ha' & _ & _ & Hc).
  destruct Hc as [-> _].
  rewrite Ha in Ha'. inversion Ha'. subst p. eexists. split; [reflexivity|].
  apply (sample_next_in_range laws) in Hd.
  pose proof (width _ _ _ _ _ _ Hf) as HV.
  rewrite Forall_forall in HV. rewrite (HV row (last_row_in _ Hl)) in Hd.
  rewrite to_dtype_small by lia. lia.
Qed.

(** Two closed runs used as witnesses: one that stops on [eos_id], one that
    fills the buffer. *)
Lemma run_stopped_by_eos :
  generate (scripted_model 10 [9; 2]%nat 9) ref_torch [5; 6; 7]%Z 6 6 1
           (Some 1%Z) (Some 2%Z)
           (fresh_world (scripted_model 10 [9; 2]%nat 9) ref_torch O 42%Z)
  = (World (C := nat) (G := Z) 2%nat 1116302264%Z
           [EvForward [5; 6; 7]%Z 6 [0; 1; 2]%nat; EvForward [9]%Z 6 [3]%nat],
     Val [5; 6; 7; 9]%Z).
Proof. vm_compute. reflexivity. Qed.

Lemma run_to_capacity :
  generate (scripted_model 10 [] 9) ref_torch [5; 6; 7]%Z 6 6 1
           (Some 1%Z) None
           (fresh_world (scripted_model 10 [] 9) ref_torch O 42%Z)
  = (World (C := nat) (G := Z) 3%nat 1000676753%Z
           [EvForward [5; 6; 7]%Z 6 [0; 1; 2]%nat; EvForward [9]%Z 6 [3]%nat;
            EvForward [9]%Z 6 [4]%nat],
     Val [5; 6; 7; 9; 9; 9]%Z).
Proof. vm_compute. reflexivity. Qed.

(** X1.  Whatever [generate] returns starts with the prompt, unchanged. *)
Theorem generate_result_extends_prompt :
  forall (M : Model) (lib : Torch) (prompt : list Z)
         (max_returned_tokens max_seq_length : Z) (temperature : Q)
         (top_k eos_id : option Z) (w w' : world (cache M) (rng lib))
         (r : list Z),
    generate M lib prompt max_returned_tokens max_seq_length temperature
             top_k eos_id w = (w', Val r) ->
    exists ts, r = prompt ++ ts.
Proof.
  intros M lib prompt mrt msl temperature top_k eos_id w w' r H.
  destruct (@generate_kept M lib msl temperature top_k eos_id (fun _ => True)
              (@kept_any M lib msl temperature top_k eos_id) prompt mrt w w' r H)
    as [_ [_ [ts [Hr _]]]].
  exists ts. exact Hr.
Qed.

Lemma generate_result_extends_prompt_witness :
  exists ts, [5; 6; 7; 9]%Z = [5; 6; 7]%Z ++ ts.
Proof.
  eapply generate_result_extends_prompt. exact run_stopped_by_eos.
Defined.

(** X2.  With [eos_id] set, the tokens appended to the prompt in a returned
    sequence never include [eos_id]: the token that stops the loop is cut
    off by the slice, and every other appended token was compared unequal
    to it. *)
Theorem generate_result_has_no_eos :
  forall (M : Model) (lib : Torch) (prompt : list Z)
         (max_returned_tokens max_seq_length : Z) (temperature : Q)
         (top_k : option Z) (eos : Z) (w w' : world (cache M) (rng lib))
         (r : list Z),
    generate M lib prompt max_returned_tokens max_seq_length temperature
             top_k (Some eos) w = (w', Val r) ->
    exists ts, r = prompt ++ ts /\ ~ In eos ts.
Proof.
  intros M lib prompt mrt msl temperature top_k eos w w' r H.
  destruct (@generate_kept M lib msl temperature top_k (Some eos)
              (fun t => eos_hit t (Some eos) = false)
              (@kept_not_eos M lib msl temperature top_k (Some eos))
              prompt mrt w w' r H)
    as [_ [_ [ts [Hr [HP _]]]]].
  exists ts. split; [exact Hr|]. intros Hin.
  rewrite Forall_forall in HP. specialize (HP eos Hin). simpl in HP.
  rewrite Z.eqb_refl in HP. discriminate.
Qed.

Lemma generate_result_has_no_eos_witness :
  exists ts, [5; 6; 7; 9]%Z = [5; 6; 7]%Z ++ ts /\ ~ In 2%Z ts.
Proof.
  eapply generate_result_has_no_eos. exact run_stopped_by_eos.
Defined.

(** X3.  When the tensor library keeps its contract, the scorer's rows
    are V logits wide and the dtype of the token tensor holds every index
    below V, every token appended to the prompt is a valid token id: at
    least 0 and below V.  (In a narrower dtype the conversion of line 83
    wraps around and the bound is lost.) *)
Theorem generate_tokens_in_vocabulary :
  forall (M : Model) (lib : Torch) (V : nat),
    TorchLaws lib -> rows_of_width M V ->
    (Z.of_nat V <= dtype_max (idx_dtype lib) + 1)%Z ->
    forall (prompt : list Z) (max_returned_tokens max_seq_length : Z)
           (temperature : Q) (top_k eos_id : option Z)
           (w w' : world (cache M) (rng lib)) (r : list Z),
      generate M lib prompt max_returned_tokens max_seq_length temperature
               top_k eos_id w = (w', Val r) ->
      exists ts, r = prompt ++ ts /\
                 Forall (fun t => (0 <= t < Z.of_nat V)%Z) ts.
Proof.
  intros M lib V laws width fits prompt mrt msl temperature top_k eos_id w w'
         r H.
  destruct (@generate_kept M lib msl temperature top_k eos_id
              (fun t => (0 <= t < Z.of_nat V)%Z)
              (@kept_in_vocabulary M lib V laws width fits msl temperature
                 top_k eos_id)
              prompt mrt w w' r H)
    as [_ [_ [ts [Hr [HP _]]]]].
  exists ts. split; assumption.
Qed.

Lemma generate_tokens_in_vocabulary_witness :
  exists ts, [5; 6; 7; 9; 9; 9]%Z = [5; 6; 7]%Z ++ ts /\
             Forall (fun t => (0 <= t < Z.of_nat 10)%Z) ts.
Proof.
  eapply generate_tokens_in_vocabulary;
    [exact ref_torch_laws | apply scripted_model_width | vm_compute; discriminate
    | exact run_to_capacity].
Defined.

(** X4.  The scorer is fed the prompt first and then each sampled token
    once, alone: the windows of a returning call, put end to end, are the
    whole result when the call stopped on [eos_id], and the result without
    its last token when the buffer was filled. *)
Theorem generate_feeds_back_each_token :
  forall (M : Model) (lib : Torch) (prompt : list Z)
         (max_returned_tokens max_seq_length : Z) (temperature : Q)
         (top_k eos_id : option Z) (w w' : world (cache M) (rng lib))
         (r : list Z),
    generate M lib prompt max_returned_tokens max_seq_length temperature
             top_k eos_id w = (w', Val r) ->
    exists ws,
      forward_windows (w_log w') = forward_windows (w_log w) ++ ws /\
      concat ws = (if (Z.of_nat (length r) <? max_returned_tokens)%Z
                   then r else removelast r).
Proof.
  intros M lib prompt mrt msl temperature top_k eos_id w w' r H.
  destruct (@generate_kept M lib msl temperature top_k eos_id (fun _ => True)
              (@kept_any M lib msl temperature top_k eos_id) prompt mrt w w' r H)
    as [Hlt [_ [ts [Hr [_ [Hle Hws]]]]]].
  eexists. split; [exact Hws|].
  rewrite concat_singletons. subst r. rewrite length_app.
  destruct (Z.ltb_spec (Z.of_nat (length prompt + length ts)) mrt) as [Hl|Hg];
    [reflexivity|].
  destruct ts as [|a l]; [simpl in Hg; lia|].
  rewrite removelast_app by discriminate. reflexivity.
Qed.

Lemma generate_feeds_back_each_token_witness :
  exists ws,
    forward_windows [EvForward [5; 6; 7]%Z 6 [0; 1; 2]%nat;
                     EvForward [9]%Z 6 [3]%nat; EvForward [9]%Z 6 [4]%nat]
    = forward_windows [] ++ ws /\
    concat ws = (if (Z.of_nat (length [5; 6; 7; 9; 9; 9]%Z) <? 6)%Z
                 then [5; 6; 7; 9; 9; 9]%Z
                 else removelast [5; 6; 7; 9; 9; 9]%Z).
Proof.
  exact (@generate_feeds_back_each_token _ _ _ _ _ _ _ _ _ _ _ run_to_capacity).
Defined.

(* ================================================================== *)
(** ** More on the sampling policy                                     *)
(* ================================================================== *)

Lemma count_zero (f : Q -> bool) (l : list Q) :
  count f l = O -> Forall (fun x => f x = false) l.
Proof.
  unfold count. induction l as [|a r IH]; intros H; [constructor|].
  simpl in H. destruct (f a) eqn:E; [discriminate|].
  constructor; [exact E | apply IH, H].
Qed.

(** X5.  [top_k = 1] is greedy decoding on the scaled logits: the token
    drawn has a scaled logit (the logit divided by the temperature, line 75)
    that no scaled logit of the row exceeds. *)
Theorem top_k_one_is_greedy :
  forall (lib : Torch), TorchLaws lib ->
  forall (temperature : Q) (row : list Q) (g : rng lib) (i : nat) (g' : rng lib),
    sample_next lib temperature (Some 1%Z) row g = Val (i, g') ->
    let logits := map (fun l => l / temperature) row in
    exists x, nth_error logits i = Some x /\ forall y, In y logits -> y <= x.
Proof.
  intros lib laws temperature row g i g' H logits.
  unfold sample_next in H. fold logits in H.
  assert (Hne : logits <> []).
  { intros E. rewrite E in H. discriminate H. }
  destruct (@crop_some logits 1%Z) as [v [[_ [Habove _]] Hc]];
    [lia | exact Hne |].
  assert (Hlen : (0 < length logits)%nat).
  { destruct logits; [contradiction | simpl; lia]. }
  replace (Z.to_nat (Z.min 1 (Z.of_nat (length logits)))) with 1%nat
    in Habove by lia.
  assert (Hnone : Forall (fun x => Qltb v x = false) logits).
  { apply (count_zero (fun x => Qltb v x)). lia. }
  rewrite Hc in H.
  destruct (Qeq_bool temperature 0); [discriminate|].
  destruct (draw_not_masked laws _ _ H) as [q Hq].
  destruct (nth_error logits i) as [x|] eqn:Ex.
  - exists x. split; [reflexivity|].
    destruct (mask_below_nth v _ _ Ex) as [Hbelow _].
    assert (Hvx : v <= x).
    { destruct (Qlt_le_dec x v) as [Hlt|Hle]; [|exact Hle].
      rewrite (Hbelow Hlt) in Hq. discriminate. }
    intros y Hy. apply Qle_trans with v; [|exact Hvx].
    rewrite Forall_forall in Hnone. specialize (Hnone _ Hy).
    apply Qnot_lt_le. intros Hlt. apply Qltb_lt in Hlt. congruence.
  - exfalso. apply nth_error_None in Ex.
    assert (Hi : (i < length (mask_below v logits))%nat).
    { apply nth_error_Some. congruence. }
    rewrite mask_below_length in Hi. lia.
Qed.

Lemma top_k_one_is_greedy_witness :
  let logits := map (fun l => l / (8 # 10)) [1; 3; 2] in
  exists x, nth_error logits 1 = Some x /\ forall y, In y logits -> y <= x.
Proof.
  apply (@top_k_one_is_greedy ref_torch ref_torch_laws (8 # 10) [1; 3; 2]
           42%Z 1%nat 1250496027%Z).
  vm_compute. reflexivity.
Defined.

(* ================================================================== *)
(** ** The scorer calls of a run                                       *)
(* ================================================================== *)

Section ScorerCalls.
Variable M : Model.
Variable lib : Torch.
Variables (max_seq_length : Z) (temperature : Q) (top_k eos_id : option Z).

(** Once the window is built the scorer is called, whatever happens next. *)
Lemma step_calls_scorer (st : loop_state) (w : world (cache M) (rng lib))
      (x : list Z) :
  index_select (idx st) (input_pos st) = Val x ->
  w_log (fst (step M lib max_seq_length temperature top_k eos_id st w))
  = w_log w ++ [EvForward x max_seq_length (input_pos st)].
Proof.
  intros Hx. unfold step, bind, lift, call_model, draw, ret.
  rewrite Hx.
  destruct (forward M (w_cache w) x max_seq_length (input_pos st))
    as [e|[c rows]]; [reflexivity|].
  destruct (last_row rows) as [e|row]; [reflexivity|].
  cbn [w_rng w_cache w_log].
  destruct (sample_next lib temperature top_k row (w_rng w)) as [e|[i g]];
    [reflexivity|].
  destruct (index_copy (idx st) (advance (input_pos st))
                       (to_dtype (idx_dtype lib) (Z.of_nat i)))
    as [e|idx']; [reflexivity|].
  destruct (eos_hit (to_dtype (idx_dtype lib) (Z.of_nat i)) eos_id);
    [|reflexivity].
  destruct (slice_to idx' (advance (input_pos st))); reflexivity.
Qed.

(** A loop only ever adds scorer calls to the log, each for the sequence
    limit it was given and for positions inside the buffer. *)
Lemma loop_events (n : nat) :
  forall st w w' o,
    generate_loop M lib n max_seq_length temperature top_k eos_id st w = (w', o) ->
    exists evs, w_log w' = w_log w ++ evs /\
                Forall (forward_within max_seq_length (length (idx st))) evs.
Proof.
  induction n as [|n IH]; intros st w w' o H; simpl in H.
  - inversion H. exists []. rewrite app_nil_r. auto.
  - unfold bind in H.
    destruct (step M lib max_seq_length temperature top_k eos_id st w)
      as [w1 oc] eqn:Es.
    destruct (step_inv _ _ _ _ _ _ _ _ Es) as [[e [-> ->]]|[x [Hx [Hl Hc]]]].
    + inversion H. exists []. rewrite app_nil_r. auto.
    + assert (Hev : forward_within max_seq_length (length (idx st))
                      (EvForward x max_seq_length (input_pos st))).
      { simpl. split; [reflexivity|].
        split; [apply (index_select_length _ _ Hx)
               | apply (index_select_range _ _ Hx)]. }
      destruct oc as [e|[st'|r]].
      * inversion H. subst. exists [EvForward x max_seq_length (input_pos st)].
        split; [exact Hl | constructor; [exact Hev | constructor]].
      * destruct Hc as [p [t [_ [_ [-> _]]]]].
        destruct (IH _ _ _ _ H) as [evs [Hlog Hall]].
        exists (EvForward x max_seq_length (input_pos st) :: evs).
        split.
        -- rewrite Hlog, Hl, <- app_assoc. reflexivity.
        -- constructor; [exact Hev|].
           simpl in Hall. rewrite set_nth_length in Hall. exact Hall.
      * inversion H. subst. exists [EvForward x max_seq_length (input_pos st)].
        split; [exact Hl | constructor; [exact Hev | constructor]].
Qed.

Lemma generate_events (prompt : list Z) (mrt : Z)
      (w w' : world (cache M) (rng lib)) (o : outcome (list Z)) :
  generate M lib prompt mrt max_seq_length temperature top_k eos_id w = (w', o) ->
  exists evs, w_log w' = w_log w ++ evs /\
              Forall (forward_within max_seq_length (Z.to_nat mrt)) evs.
Proof.
  unfold generate. intros H.
  destruct (Z.ltb_spec (Z.of_nat (length prompt)) mrt) as [Hlt|Hge].
  - apply loop_events in H. simpl in H.
    rewrite fill_buffer_length in H by exact Hlt. exact H.
  - inversion H. exists []. rewrite app_nil_r. auto.
Qed.
End ScorerCalls.

(** X7.  [generate] leaves without calling the scorer exactly when
    [max_returned_tokens] does not exceed the prompt length: the assertion
    of line 56 fails and the world is as it was.  An empty prompt is not
    refused: with [max_returned_tokens > 0] the scorer is called once, on
    the empty window with no positions, and the call then raises. *)
Theorem generate_calls_scorer_unless_assertion_fails :
  forall (M : Model) (lib : Torch) (prompt : list Z)
         (max_returned_tokens max_seq_length : Z) (temperature : Q)
         (top_k eos_id : option Z) (w : world (cache M) (rng lib)),
    let run := generate M lib prompt max_returned_tokens max_seq_length
                        temperature top_k eos_id w in
    let refused := (max_returned_tokens <= Z.of_nat (length prompt))%Z in
    (w_log (fst run) = w_log w <-> refused) /\
    (refused -> run = (w, Raised AssertionError)) /\
    (prompt = [] -> ~ refused ->
     (exists e, snd run = Raised e) /\
     w_log (fst run) = w_log w ++ [EvForward [] max_seq_length []]).
Proof.
  intros M lib prompt mrt msl temperature top_k eos_id w run refused.
  assert (Hbad : refused -> run = (w, Raised AssertionError)).
  { subst run refused. unfold generate. intros Hle.
    destruct (Z.ltb_spec (Z.of_nat (length prompt)) mrt); [lia | reflexivity]. }
  assert (Hfirst :
            ~ refused ->
            exists n st,
              run = (c <- step M lib msl temperature top_k eos_id st ;;
                     match c with
                     | Return r => ret r
                     | Continue st' =>
                         generate_loop M lib n msl temperature top_k eos_id st'
                     end) w /\
              input_pos st = seq 0 (length prompt) /\
              w_log (fst (step M lib msl temperature top_k eos_id st w))
              = w_log w ++ [EvForward prompt msl (seq 0 (length prompt))]).
  { subst run refused. intros Hgt. unfold generate.
    destruct (Z.ltb_spec (Z.of_nat (length prompt)) mrt) as [Hlt|Hge]; [|lia].
    destruct (Z.to_nat (mrt - Z.of_nat (length prompt))) as [|n] eqn:En; [lia|].
    exists n, (LoopState (fill_buffer lib prompt mrt) (seq 0 (length prompt))).
    split; [reflexivity|]. split; [reflexivity|].
    apply step_calls_scorer. cbn [idx input_pos]. rewrite index_select_seq.
    - rewrite firstn_fill_buffer. reflexivity.
    - rewrite fill_buffer_length by exact Hlt. lia. }
  split; [|split; [exact Hbad|]].
  - split.
    + intros Hlog.
      destruct (Z.le_gt_cases mrt (Z.of_nat (length prompt))) as [Hle|Hgt];
        [exact Hle|].
      exfalso. destruct Hfirst as [n [st [Hrun [_ Hl1]]]];
        [unfold refused; lia|].
      rewrite Hrun in Hlog. unfold bind in Hlog.
      destruct (step M lib msl temperature top_k eos_id st w) as [w1 oc] eqn:Es.
      cbn [fst] in Hl1.
      assert (Hgrow : forall w2 : world (cache M) (rng lib),
                 (exists evs, w_log w2 = w_log w1 ++ evs) ->
                 w_log w2 <> w_log w).
      { intros w2 [evs E2] E. rewrite E2, Hl1 in E.
        apply (f_equal (@length event)) in E.
        rewrite !length_app in E. simpl in E. lia. }
      destruct oc as [e|[st'|r]]; cbn [fst] in Hlog.
      * apply (Hgrow w1); [exists []; rewrite app_nil_r; reflexivity | exact Hlog].
      * destruct (generate_loop M lib n msl temperature top_k eos_id st' w1)
          as [w2 o2] eqn:El.
        pose proof El as Hev. apply loop_events in Hev.
        destruct Hev as [evs [Hl2 _]].
        apply (Hgrow w2); [exists evs; exact Hl2 | exact Hlog].
      * apply (Hgrow w1); [exists []; rewrite app_nil_r; reflexivity | exact Hlog].
    + intros Hu. rewrite (Hbad Hu). reflexivity.
  - intros Hnil Hok. destruct (Hfirst Hok) as [n [st [Hrun [Hpos Hl1]]]].
    rewrite Hrun. unfold bind. subst prompt. cbn [length seq] in Hpos, Hl1.
    destruct (step M lib msl temperature top_k eos_id st w) as [w1 oc] eqn:Es.
    cbn [fst] in Hl1.
    destruct oc as [e|c].
    + split; [exists e; reflexivity | exact Hl1].
    + exfalso.
      destruct (step_val _ _ _ _ _ _ _ _ Es)
        as (x & c1 & rows & row & i & g' & p & _ & _ & _ & _ & _ & Ha & _).
      rewrite Hpos in Ha. discriminate Ha.
Qed.

Lemma generate_calls_scorer_unless_assertion_fails_witness :
  let M := scripted_model 10 [] 9 in
  let w0 := fresh_world M ref_torch O 42%Z in
  let run := generate M ref_torch [] 3 3 1 None None w0 in
  (exists e, snd run = Raised e) /\
  w_log (fst run) = w_log w0 ++ [EvForward [] 3 []].
Proof.
  intros M w0 run.
  apply (@generate_calls_scorer_unless_assertion_fails M ref_torch [] 3%Z 3%Z 1
           None None w0).
  - reflexivity.
  - simpl. lia.
Defined.

(* ================================================================== *)
(** ** The work done by the sample generator                           *)
(* ================================================================== *)

Lemma count_events_app (f : event -> bool) (a b : list event) :
  count_events f (a ++ b) = (count_events f a + count_events f b)%nat.
Proof. unfold count_events. rewrite filter_app, length_app. reflexivity. Qed.

Lemma forward_only (msl : Z) (L : nat) (evs : list event) :
  Forall (forward_within msl L) evs ->
  count_events is_forward evs = length evs /\
  count_events is_reset evs = O /\
  count_events is_decode evs = O /\
  length (forward_positions evs) = length evs.
Proof.
  unfold count_events. induction 1 as [|e r He _ IH]; simpl; [auto|].
  destruct e; simpl in He; try contradiction.
  simpl. destruct IH as [-> [-> [-> ->]]]. auto.
Qed.

Lemma positions_from_length (n : nat) (pos : list nat) :
  length (positions_from n pos) = n.
Proof.
  revert pos. induction n as [|n IH]; intros pos; simpl; [reflexivity|].
  rewrite IH. reflexivity.
Qed.

Section SampleWork.
Variable M : Model.
Variable lib : Torch.
Variable tokenizer : Tokenizer.

(** One generation of [infere]: [eos_id] is never passed, so a generation
    that returns has called the scorer once per new token and gives back
    the prompt followed by all the new tokens. *)
Lemma generate_full (prompt : list Z) (mrt msl : Z) (temperature : Q)
      (top_k : option Z) (w w' : world (cache M) (rng lib)) (y : list Z) :
  generate M lib prompt mrt msl temperature top_k None w = (w', Val y) ->
  exists evs ts,
    w_log w' = w_log w ++ evs /\
    Forall (forward_within msl (Z.to_nat mrt)) evs /\
    length evs = Z.to_nat (mrt - Z.of_nat (length prompt)) /\
    y = prompt ++ ts /\ Z.of_nat (length y) = mrt /\
    (Z.of_nat (length prompt) < mrt)%Z.
Proof.
  intros H.
  pose proof H as Hev. apply generate_events in Hev.
  destruct Hev as [evs [Hlog Hall]].
  destruct (@generate_kept M lib msl temperature top_k None (fun _ => True)
              (@kept_any M lib msl temperature top_k None) prompt mrt w w' y H)
    as [Hlt [_ [ts [Hy _]]]].
  exists evs, ts. split; [exact Hlog|]. split; [exact Hall|].
  split; [|split; [exact Hy|split; [|exact Hlt]]].
  - destruct (forward_only Hall) as [_ [_ [_ <-]]].
    revert H. unfold generate.
    destruct (Z.ltb_spec (Z.of_nat (length prompt)) mrt) as [Hl|Hl]; [|lia].
    intros H. apply loop_positions in H.
    destruct H as [m [_ [Hpos [_ Hm]]]].
    rewrite Hlog, forward_positions_app in Hpos.
    apply app_inv_head in Hpos. rewrite Hpos, length_firstn.
    rewrite positions_from_length.
    rewrite (Hm eq_refl) by (eexists; reflexivity). lia.
  - revert H. unfold generate.
    destruct (Z.ltb_spec (Z.of_nat (length prompt)) mrt) as [Hl|Hl]; [|lia].
    intros H. apply loop_length_no_eos in H. simpl in H.
    rewrite fill_buffer_length in H by assumption. lia.
Qed.

(** The events [sample_loop] adds: scorer calls for the limit [mrt] inside
    a buffer of [mrt] slots, cache resets and decodes. *)
Lemma sample_loop_events (n : nat) :
  forall encoded mrt temperature top_k res w w' o,
    sample_loop M lib tokenizer n encoded mrt temperature top_k res w = (w', o) ->
    exists evs, w_log w' = w_log w ++ evs /\
      Forall (fun e => forward_within mrt (Z.to_nat mrt) e \/
                       is_reset e = true \/ is_decode e = true) evs.
Proof.
  induction n as [|n IH]; intros encoded mrt temperature top_k res w w' o H;
    simpl in H.
  - inversion H. exists []. rewrite app_nil_r. auto.
  - unfold bind in H.
    destruct (generate M lib encoded mrt mrt temperature top_k None w)
      as [w1 [e|y]] eqn:Eg.
    + inversion H. subst.
      apply generate_events in Eg. destruct Eg as [evs [Hlog Hall]].
      exists evs. split; [exact Hlog|].
      eapply Forall_impl; [|exact Hall]. intros e0 He0. left. exact He0.
    + apply generate_events in Eg. destruct Eg as [evs [Hlog Hall]].
      unfold call_reset_cache, emit in H. cbn [w_cache w_rng w_log] in H.
      apply IH in H. cbn [w_log] in H. destruct H as [evs' [Hlog' Hall']].
      exists (evs ++ [EvResetCache; EvDecode y] ++ evs'). split.
      * rewrite Hlog', Hlog, <- !app_assoc. reflexivity.
      * apply Forall_app. split.
        -- eapply Forall_impl; [|exact Hall]. intros e0 He0. left. exact He0.
        -- constructor; [right; left; reflexivity|].
           constructor; [right; right; reflexivity | exact Hall'].
Qed.

(** A [sample_loop] that comes to its end. *)
Lemma sample_loop_done (n : nat) :
  forall encoded mrt temperature top_k res w w' res',
    sample_loop M lib tokenizer n encoded mrt temperature top_k res w
    = (w', Val res') ->
    exists evs,
      w_log w' = w_log w ++ evs /\
      count_events is_reset evs = n /\
      count_events is_decode evs = n /\
      count_events is_forward evs
      = (n * Z.to_nat (mrt - Z.of_nat (length encoded)))%nat /\
      yields evs = [] /\
      (n = O -> res' = res /\ w' = w) /\
      ((0 < n)%nat ->
       (exists c, w_cache w' = reset_cache M c) /\
       exists ts, res' = Some (decode tokenizer (encoded ++ ts)) /\
                  Z.of_nat (length (encoded ++ ts)) = mrt /\
                  (Z.of_nat (length encoded) < mrt)%Z).
Proof.
  induction n as [|n IH]; intros encoded mrt temperature top_k res w w' res' H;
    simpl in H.
  - inversion H. subst. exists []. rewrite app_nil_r.
    repeat split; try reflexivity; lia.
  - unfold bind in H.
    destruct (generate M lib encoded mrt mrt temperature top_k None w)
      as [w1 [e|y]] eqn:Eg; [discriminate|].
    apply generate_full in Eg.
    destruct Eg as [evs [ts [Hlog [Hall [Hlen [Hy [Hly Hlt]]]]]]].
    destruct (forward_only Hall) as [Hf [Hr [Hd _]]].
    unfold call_reset_cache, emit in H. cbn [w_cache w_rng w_log] in H.
    apply IH in H. cbn [w_log w_cache] in H.
    destruct H as [evs' [Hlog' [Hr' [Hd' [Hf' [Hyl' [H0 Hpos]]]]]]].
    exists (evs ++ [EvResetCache; EvDecode y] ++ evs').
    split; [rewrite Hlog', Hlog, <- !app_assoc; reflexivity|].
    rewrite !count_events_app, Hf, Hr, Hd, Hr', Hd', Hf', Hlen.
    split; [reflexivity|]. split; [reflexivity|].
    split; [unfold count_events; simpl; lia|].
    split.
    { rewrite !yields_app, Hyl'. simpl. rewrite app_nil_r.
      clear -Hall. induction Hall as [|e r He _ IHr]; [reflexivity|].
      destruct e; simpl in He; try contradiction. exact IHr. }
    split; [intros Hn; discriminate|].
    intros _. destruct n as [|n].
    + destruct (H0 eq_refl) as [-> ->]. split.
      * eexists. reflexivity.
      * exists ts. subst y. split; [reflexivity | split; [exact Hly | exact Hlt]].
    + apply Hpos. lia.
Qed.
End SampleWork.

Lemma within_block_of (B mrt : Z) (e : event) :
  (mrt <= B)%Z ->
  forward_within mrt (Z.to_nat mrt) e \/ is_reset e = true \/ is_decode e = true ->
  within_block B e.
Proof.
  intros HB [H|[H|H]]; destruct e; simpl in *; try exact I;
    try contradiction; try discriminate.
  destruct H as [-> [_ Hpos]]. split; [exact HB|].
  eapply Forall_impl; [|exact Hpos]. intros p Hp. simpl in Hp. lia.
Qed.

(** X8.  Whatever the arguments and however the run ends, every scorer call
    made by [infere] asks for a sequence limit of at most
    [model.config.block_size] and only for positions below that limit. *)
Theorem infere_stays_within_block_size :
  forall (G : globals) (M : Model) (lib : Torch) (tokenizer : Tokenizer)
         (prompt : string) (num_samples max_new_tokens : Z)
         (top_k : option Z) (temperature : Q) (w : world (cache M) (rng lib)),
    let run := infere_body G M lib tokenizer prompt num_samples
                           max_new_tokens top_k temperature w in
    exists evs, w_log (fst run) = w_log w ++ evs /\
                Forall (within_block (block_size M)) evs.
Proof.
  intros G M lib tokenizer prompt ns mnt top_k temperature w run. subst run.
  unfold infere_body, bind, lift, emit, seed_everything, raise, ret.
  destruct (fabric_device G) as [e|d].
  - exists []. simpl. rewrite app_nil_r. auto.
  - cbn [w_cache w_rng w_log].
    destruct (Z.leb_spec (Z.of_nat (length (encode tokenizer prompt)) + mnt)
                         (block_size M)) as [HB|HB].
    + cbn [w_cache w_rng w_log].
      match goal with
      | |- context [sample_loop M lib tokenizer ?n ?e ?m ?t ?k ?r ?w0] =>
          destruct (sample_loop M lib tokenizer n e m t k r w0)
            as [w1 o] eqn:Es
      end.
      apply sample_loop_events in Es. cbn [w_log] in Es.
      destruct Es as [evs [Hlog Hall]].
      assert (Hin : Forall (within_block (block_size M))
                           ([EvEncode prompt; EvSeed 1234] ++ evs)).
      { constructor; [exact I|]. constructor; [exact I|].
        eapply Forall_impl; [|exact Hall].
        intros e0. apply within_block_of, HB. }
      destruct o as [e|[s|]].
      * exists ([EvEncode prompt; EvSeed 1234] ++ evs). simpl fst.
        split; [|exact Hin]. rewrite Hlog, <- !app_assoc. reflexivity.
      * destruct (ns =? 1)%Z.
        -- exists ([EvEncode prompt; EvSeed 1234] ++ evs). simpl fst.
           split; [|exact Hin]. rewrite Hlog, <- !app_assoc. reflexivity.
        -- exists (([EvEncode prompt; EvSeed 1234] ++ evs) ++ [EvYield s]).
           simpl fst. cbn [w_log]. split.
           ++ rewrite Hlog, <- !app_assoc. reflexivity.
           ++ apply Forall_app. split; [exact Hin|].
              constructor; [exact I | constructor].
      * exists ([EvEncode prompt; EvSeed 1234] ++ evs). simpl fst.
        split; [|exact Hin]. rewrite Hlog, <- !app_assoc. reflexivity.
    + exists [EvEncode prompt]. simpl. split; [reflexivity|].
      constructor; [exact I | constructor].
Qed.

(** A run of the body of [infere] that ends without an exception, in
    full. *)
Lemma infere_body_done (G : globals) (M : Model) (lib : Torch)
      (tokenizer : Tokenizer) prompt num_samples max_new_tokens top_k
      temperature (w w' : world (cache M) (rng lib)) (v : option string) :
  infere_body G M lib tokenizer prompt num_samples max_new_tokens top_k
              temperature w = (w', Val v) ->
  exists evs ts,
    (1 <= num_samples)%Z /\ (1 <= max_new_tokens)%Z /\
    Z.of_nat (length ts) = max_new_tokens /\
    (exists c, w_cache w' = reset_cache M c) /\
    count_events is_forward evs
    = (Z.to_nat num_samples * Z.to_nat max_new_tokens)%nat /\
    count_events is_reset evs = Z.to_nat num_samples /\
    count_events is_decode evs = Z.to_nat num_samples /\
    yields evs = [] /\
    let text := decode tokenizer (encode tokenizer prompt ++ ts) in
    w_log w' = w_log w ++ [EvEncode prompt; EvSeed 1234] ++ evs
               ++ (if (num_samples =? 1)%Z then [] else [EvYield text]) /\
    v = (if (num_samples =? 1)%Z then Some text else None).
Proof.
  unfold infere_body, bind, lift, emit, seed_everything, raise, ret.
  intros H.
  destruct (fabric_device G) as [e|d]; [discriminate|].
  cbn [w_cache w_rng w_log] in H.
  destruct (Z.leb_spec (Z.of_nat (length (encode tokenizer prompt))
                        + max_new_tokens) (block_size M)) as [HB|HB];
    [|discriminate].
  cbn [w_cache w_rng w_log] in H.
  match type of H with
  | context [sample_loop M lib tokenizer ?n ?e ?m ?t ?k ?r ?w0] =>
      destruct (sample_loop M lib tokenizer n e m t k r w0)
        as [w1 [e1|res]] eqn:Es
  end; [discriminate|].
  apply sample_loop_done in Es. cbn [w_log w_cache] in Es.
  destruct Es as [evs [Hlog [Hr [Hd [Hf [Hy [H0 Hpos]]]]]]].
  destruct (Z.to_nat num_samples) as [|n] eqn:En.
  { destruct (H0 eq_refl) as [-> _]. discriminate. }
  destruct Hpos as [[c Hc] [ts [-> [Hlen Hlt]]]]; [lia|].
  rewrite length_app in Hlen.
  exists evs, ts.
  split; [lia|]. split; [lia|]. split; [lia|].
  assert (HN : Z.to_nat (Z.of_nat (length (encode tokenizer prompt))
                         + max_new_tokens
                         - Z.of_nat (length (encode tokenizer prompt)))
               = Z.to_nat max_new_tokens) by (f_equal; lia).
  rewrite HN in Hf.
  destruct (num_samples =? 1)%Z.
  - inversion H. subst. split; [exists c; exact Hc|].
    repeat split; try assumption.
    rewrite Hlog, <- !app_assoc. simpl. rewrite app_nil_r. reflexivity.
  - inversion H. subst. cbn [w_cache w_log]. split; [exists c; exact Hc|].
    repeat split; try assumption.
    rewrite Hlog, <- !app_assoc. reflexivity.
Qed.

(** Closed runs of the body of [infere] used as witnesses. *)
Lemma infere_run_two :
  infere_body bound_globals (flat_model 26) ref_torch letter_tokenizer "HI"
              2 3 None (8 # 10) (fresh_world (flat_model 26) ref_torch O 42%Z)
  = (World (C := nat) (G := Z) O 2118068940%Z
           [ EvEncode "HI"; EvSeed 1234;
             EvForward [7; 8]%Z 5 [0; 1]%nat; EvForward [0]%Z 5 [2]%nat;
             EvForward [5]%Z 5 [3]%nat;
             EvResetCache; EvDecode [7; 8; 0; 5; 10]%Z;
             EvForward [7; 8]%Z 5 [0; 1]%nat; EvForward [20]%Z 5 [2]%nat;
             EvForward [15]%Z 5 [3]%nat;
             EvResetCache; EvDecode [7; 8; 20; 15; 20]%Z;
             EvYield "HIUPU" ],
     Val None).
Proof. vm_compute. reflexivity. Qed.

(** X9.  A run of [infere] that ends without an exception was asked for at
    least one sample and one new token, has called the scorer exactly
    [num_samples * max_new_tokens] times, has reset the cache and decoded
    once per sample, and leaves the scorer's cache freshly reset. *)
Theorem infere_work_done :
  forall (G : globals) (M : Model) (lib : Torch) (tokenizer : Tokenizer)
         (prompt : string) (num_samples max_new_tokens : Z)
         (top_k : option Z) (temperature : Q)
         (w w' : world (cache M) (rng lib)) (v : option string),
    infere_body G M lib tokenizer prompt num_samples max_new_tokens top_k
                temperature w = (w', Val v) ->
    exists evs,
      w_log w' = w_log w ++ evs /\
      (1 <= num_samples)%Z /\ (1 <= max_new_tokens)%Z /\
      count_events is_forward evs
      = (Z.to_nat num_samples * Z.to_nat max_new_tokens)%nat /\
      count_events is_reset evs = Z.to_nat num_samples /\
      count_events is_decode evs = Z.to_nat num_samples /\
      exists c, w_cache w' = reset_cache M c.
Proof.
  intros G M lib tokenizer prompt ns mnt top_k temperature w w' v H.
  apply infere_body_done in H.
  destruct H as [evs [ts [Hns [Hmnt [_ [Hc [Hf [Hr [Hd [_ [Hlog _]]]]]]]]]]].
  eexists. split; [exact Hlog|].
  split; [exact Hns|]. split; [exact Hmnt|].
  rewrite !count_events_app, Hf, Hr, Hd.
  repeat split; try exact Hc;
    destruct (ns =? 1)%Z; unfold count_events; simpl; lia.
Qed.

Lemma infere_work_done_witness :
  exists evs,
    [ EvEncode "HI"; EvSeed 1234;
      EvForward [7; 8]%Z 5 [0; 1]%nat; EvForward [0]%Z 5 [2]%nat;
      EvForward [5]%Z 5 [3]%nat;
      EvResetCache; EvDecode [7; 8; 0; 5; 10]%Z;
      EvForward [7; 8]%Z 5 [0; 1]%nat; EvForward [20]%Z 5 [2]%nat;
      EvForward [15]%Z 5 [3]%nat;
      EvResetCache; EvDecode [7; 8; 20; 15; 20]%Z;
      EvYield "HIUPU" ] = [] ++ evs /\
    (1 <= 2)%Z /\ (1 <= 3)%Z /\
    count_events is_forward evs = (Z.to_nat 2 * Z.to_nat 3)%nat /\
    count_events is_reset evs = Z.to_nat 2 /\
    count_events is_decode evs = Z.to_nat 2 /\
    exists c, O = reset_cache (flat_model 26) c.
Proof.
  exact (@infere_work_done _ _ _ _ _ _ _ _ _ _ _ _ infere_run_two).
Defined.

(** X10.  A run of [infere] that ends without an exception delivers exactly
    one text: the decoding of the prompt's tokens followed by
    [max_new_tokens] generated tokens.  With [num_samples = 1] it is the
    value handed to [StopIteration] and nothing is yielded; otherwise it is
    the only text yielded and the generator ends with no value. *)
Theorem infere_delivers_one_text :
  forall (G : globals) (M : Model) (lib : Torch) (tokenizer : Tokenizer)
         (prompt : string) (num_samples max_new_tokens : Z)
         (top_k : option Z) (temperature : Q)
         (w w' : world (cache M) (rng lib)) (v : option string),
    infere_body G M lib tokenizer prompt num_samples max_new_tokens top_k
                temperature w = (w', Val v) ->
    exists ts,
      Z.of_nat (length ts) = max_new_tokens /\
      let text := decode tokenizer (encode tokenizer prompt ++ ts) in
      (num_samples = 1%Z /\ v = Some text /\
       yields (w_log w') = yields (w_log w))
      \/
      (num_samples <> 1%Z /\ v = None /\
       yields (w_log w') = yields (w_log w) ++ [text]).
Proof.
  intros G M lib tokenizer prompt ns mnt top_k temperature w w' v H.
  apply infere_body_done in H.
  destruct H as [evs [ts [_ [_ [Hlen [_ [_ [_ [_ [Hy [Hlog Hv]]]]]]]]]]].
  exists ts. split; [exact Hlen|]. intros text.
  rewrite Hlog, !yields_app, Hy. simpl.
  destruct (Z.eqb_spec ns 1) as [E|E].
  - left. split; [exact E|]. split; [exact Hv|].
    simpl. rewrite app_nil_r. reflexivity.
  - right. split; [exact E|]. split; [exact Hv|]. reflexivity.
Qed.

Lemma infere_delivers_one_text_witness :
  exists ts,
    Z.of_nat (length ts) = 3%Z /\
    let text := decode letter_tokenizer (encode letter_tokenizer "HI" ++ ts) in
    (2%Z = 1%Z /\ None = Some text /\
     yields [ EvEncode "HI"; EvSeed 1234;
              EvForward [7; 8]%Z 5 [0; 1]%nat; EvForward [0]%Z 5 [2]%nat;
              EvForward [5]%Z 5 [3]%nat;
              EvResetCache; EvDecode [7; 8; 0; 5; 10]%Z;
              EvForward [7; 8]%Z 5 [0; 1]%nat; EvForward [20]%Z 5 [2]%nat;
              EvForward [15]%Z 5 [3]%nat;
              EvResetCache; EvDecode [7; 8; 20; 15; 20]%Z;
              EvYield "HIUPU" ] = yields [])
    \/
    (2%Z <> 1%Z /\ @None string = None /\
     yields [ EvEncode "HI"; EvSeed 1234;
              EvForward [7; 8]%Z 5 [0; 1]%nat; EvForward [0]%Z 5 [2]%nat;
              EvForward [5]%Z 5 [3]%nat;
              EvResetCache; EvDecode [7; 8; 0; 5; 10]%Z;
              EvForward [7; 8]%Z 5 [0; 1]%nat; EvForward [20]%Z 5 [2]%nat;
              EvForward [15]%Z 5 [3]%nat;
              EvResetCache; EvDecode [7; 8; 20; 15; 20]%Z;
              EvYield "HIUPU" ] = yields [] ++ [text]).
Proof.
  exact (@infere_delivers_one_text _ _ _ _ _ _ _ _ _ _ _ _ infere_run_two).
Defined.

(** X11.  With [fabric] bound, a request that does not fit the scorer's
    block size is refused by the assertion of line 184: the prompt has been
    encoded, but the random generator has not been reseeded and the scorer
    has not been touched. *)
Theorem infere_rejects_over_block_size :
  forall (G : globals) (M : Model) (lib : Torch) (tokenizer : Tokenizer)
         (prompt : string) (num_samples max_new_tokens : Z)
         (top_k : option Z) (temperature : Q)
         (w : world (cache M) (rng lib)) (d : string),
    fabric_device G = Val d ->
    (block_size M < Z.of_nat (length (encode tokenizer prompt))
                    + max_new_tokens)%Z ->
    infere_body G M lib tokenizer prompt num_samples max_new_tokens top_k
                temperature w
    = (World (w_cache w) (w_rng w) (w_log w ++ [EvEncode prompt]),
       Raised AssertionError).
Proof.
  intros G M lib tokenizer prompt ns mnt top_k temperature w d Hd HB.
  unfold infere_body, bind, lift, emit, raise. rewrite Hd.
  cbn [w_cache w_rng w_log].
  destruct (Z.leb_spec (Z.of_nat (length (encode tokenizer prompt)) + mnt)
                       (block_size M)); [lia | reflexivity].
Qed.

Lemma infere_rejects_over_block_size_witness :
  infere_body bound_globals (flat_model 26) ref_torch letter_tokenizer "HI"
              1 2047 None (8 # 10) (fresh_world (flat_model 26) ref_torch O 42%Z)
  = (World (C := nat) (G := Z) O 42%Z [EvEncode "HI"], Raised AssertionError).
Proof.
  apply (@infere_rejects_over_block_size bound_globals (flat_model 26) ref_torch
           letter_tokenizer "HI" 1 2047 None (8 # 10)
           (fresh_world (flat_model 26) ref_torch O 42%Z) "cpu").
  - reflexivity.
  - vm_compute. reflexivity.
Defined.

(** X12.  With [fabric] bound and a request that fits the block size, a
    [num_samples] of zero or less makes no generation at all and ends in
    [UnboundLocalError] for [result_as_string], after the generator has
    been reseeded. *)
Theorem infere_without_samples :
  forall (G : globals) (M : Model) (lib : Torch) (tokenizer : Tokenizer)
         (prompt : string) (num_samples max_new_tokens : Z)
         (top_k : option Z) (temperature : Q)
         (w : world (cache M) (rng lib)) (d : string),
    fabric_device G = Val d ->
    (Z.of_nat (length (encode tokenizer prompt)) + max_new_tokens
     <= block_size M)%Z ->
    (num_samples <= 0)%Z ->
    infere_body G M lib tokenizer prompt num_samples max_new_tokens top_k
                temperature w
    = (World (w_cache w) (seed_rng lib 1234)
             (w_log w ++ [EvEncode prompt; EvSeed 1234]),
       Raised (UnboundLocalError "result_as_string")).
Proof.
  intros G M lib tokenizer prompt ns mnt top_k temperature w d Hd HB Hns.
  unfold infere_body, bind, lift, emit, seed_everything, raise. rewrite Hd.
  cbn [w_cache w_rng w_log].
  destruct (Z.leb_spec (Z.of_nat (length (encode tokenizer prompt)) + mnt)
                       (block_size M)); [|lia].
  replace (Z.to_nat ns) with O by lia. simpl.
  rewrite <- app_assoc. reflexivity.
Qed.

Lemma infere_without_samples_witness :
  infere_body bound_globals (flat_model 26) ref_torch letter_tokenizer "HI"
              0 3 None (8 # 10) (fresh_world (flat_model 26) ref_torch O 42%Z)
  = (World (C := nat) (G := Z) O 1234%Z [EvEncode "HI"; EvSeed 1234],
     Raised (UnboundLocalError "result_as_string")).
Proof.
  apply (@infere_without_samples bound_globals (flat_model 26) ref_torch
           letter_tokenizer "HI" 0 3 None (8 # 10)
           (fresh_world (flat_model 26) ref_torch O 42%Z) "cpu").
  - reflexivity.
  - vm_compute. discriminate.
  - lia.
Defined.

(** X13.  With [fabric] bound, at least one sample asked for and a request
    that fits the block size, a [max_new_tokens] of zero or less fails in
    the first generation on the assertion of [generate]: the generator has
    been reseeded, the scorer has not been called and its cache has not
    been reset. *)
Theorem infere_without_new_tokens :
  forall (G : globals) (M : Model) (lib : Torch) (tokenizer : Tokenizer)
         (prompt : string) (num_samples max_new_tokens : Z)
         (top_k : option Z) (temperature : Q)
         (w : world (cache M) (rng lib)) (d : string),
    fabric_device G = Val d ->
    (Z.of_nat (length (encode tokenizer prompt)) + max_new_tokens
     <= block_size M)%Z ->
    (1 <= num_samples)%Z -> (max_new_tokens <= 0)%Z ->
    infere_body G M lib tokenizer prompt num_samples max_new_tokens top_k
                temperature w
    = (World (w_cache w) (seed_rng lib 1234)
             (w_log w ++ [EvEncode prompt; EvSeed 1234]),
       Raised AssertionError).
Proof.
  intros G M lib tokenizer prompt ns mnt top_k temperature w d Hd HB Hns Hm.
  unfold infere_body, bind, lift, emit, seed_everything, raise. rewrite Hd.
  cbn [w_cache w_rng w_log].
  destruct (Z.leb_spec (Z.of_nat (length (encode tokenizer prompt)) + mnt)
                       (block_size M)); [|lia].
  destruct (Z.to_nat ns) as [|n] eqn:En; [lia|].
  simpl sample_loop. unfold bind, generate.
  destruct (Z.ltb_spec (Z.of_nat (length (encode tokenizer prompt)))
                       (Z.of_nat (length (encode tokenizer prompt)) + mnt));
    [lia|].
  unfold raise. cbn [w_cache w_rng w_log].
  rewrite <- app_assoc. reflexivity.
Qed.

Lemma infere_without_new_tokens_witness :
  infere_body bound_globals (flat_model 26) ref_torch letter_tokenizer "HI"
              2 0 None (8 # 10) (fresh_world (flat_model 26) ref_torch O 42%Z)
  = (World (C := nat) (G := Z) O 1234%Z [EvEncode "HI"; EvSeed 1234],
     Raised AssertionError).
Proof.
  apply (@infere_without_new_tokens bound_globals (flat_model 26) ref_torch
           letter_tokenizer "HI" 2 0 None (8 # 10)
           (fresh_world (flat_model 26) ref_torch O 42%Z) "cpu").
  - reflexivity.
  - vm_compute. discriminate.
  - lia.
  - lia.
Defined.

(* ================================================================== *)
(** ** Loading the model                                               *)
(* ================================================================== *)

Lemma is_gptq_iff (quantize : option string) :
  is_gptq quantize = true <-> quantize = Some "gptq.int4"%string.
Proof.
  destruct quantize as [q|]; simpl.
  - rewrite String.eqb_eq. split; [intros ->; reflexivity | congruence].
  - split; discriminate.
Qed.

Lemma pick_dtype_bfloat16 (device_type : string) (bf16 : bool) :
  pick_dtype device_type bf16 = BFloat16 <->
  device_type = "cuda"%string /\ bf16 = true.
Proof.
  unfold pick_dtype. destruct (String.eqb_spec device_type "cuda");
    destruct bf16; simpl; split; try discriminate; try tauto; intros [? ?];
    try discriminate; contradiction.
Qed.

(** X17.  A call of [load_model] that returns has called its collaborators
    in one fixed order.  The checkpoint read is [lit_model_gptq.4bit.pth]
    (which then exists) when [quantize] is ["gptq.int4"] and [lit_model.pth]
    for every other value of [quantize], which is handed to the model
    construction unchanged; the dtype is bfloat16 exactly on a cuda device
    with bf16 support, float32 otherwise. *)
Theorem load_model_success_trace :
  forall (Cfg Mdl Tok : Type) (env : Loader Cfg Mdl Tok)
         (checkpoint_dir : string) (quantize : option string)
         (log : list load_event) (model : Mdl) (tokenizer : Tok),
    load_model env checkpoint_dir quantize = (log, Loaded (model, tokenizer)) ->
    exists device_type d model_file,
      new_fabric env = Val device_type /\
      (d = BFloat16 <->
       device_type = "cuda"%string /\ is_bf16_supported env = true) /\
      (d = BFloat16 \/ d = Float32) /\
      (quantize = Some "gptq.int4"%string ->
       model_file = "lit_model_gptq.4bit.pth"%string /\
       is_file env (path_join checkpoint_dir model_file) = true) /\
      (quantize <> Some "gptq.int4"%string ->
       model_file = "lit_model.pth"%string) /\
      log = [ LdCheckDir checkpoint_dir;
              LdReadConfig (path_join checkpoint_dir "lit_config.json");
              LdFabric;
              LdInitModel device_type d quantize;
              LdLoadCheckpoint (path_join checkpoint_dir model_file);
              LdSetupModule;
              LdTokenizer (path_join checkpoint_dir "tokenizer.json")
                          (path_join checkpoint_dir "tokenizer_config.json") ].
Proof.
  intros Cfg Mdl Tok env dir quantize log model tokenizer H.
  unfold load_model in H.
  destruct (check_valid_checkpoint_dir env dir) as [e|u]; [discriminate|].
  destruct (read_config env (path_join dir "lit_config.json")) as [e|config];
    [discriminate|].
  destruct (new_fabric env) as [e|device_type]; [discriminate|].
  destruct (is_gptq quantize) eqn:Eq.
  - destruct (is_file env (path_join dir "lit_model_gptq.4bit.pth")) eqn:Ef;
      simpl in H; [|discriminate].
    destruct (init_model env config device_type _ quantize) as [e|m1];
      [discriminate|].
    destruct (load_checkpoint env _ m1) as [e|m2]; [discriminate|].
    destruct (setup_module env m2) as [e|m3]; [discriminate|].
    destruct (new_tokenizer env _ _) as [e|t]; [discriminate|].
    inversion H. subst.
    exists device_type, (pick_dtype device_type (is_bf16_supported env)),
           "lit_model_gptq.4bit.pth"%string.
    split; [reflexivity|]. split; [apply pick_dtype_bfloat16|].
    split; [destruct (pick_dtype _ _); auto|].
    split; [intros _; split; [reflexivity | exact Ef]|].
    split; [|reflexivity].
    intros Hq. apply is_gptq_iff in Eq. contradiction.
  - simpl in H.
    destruct (init_model env config device_type _ quantize) as [e|m1];
      [discriminate|].
    destruct (load_checkpoint env _ m1) as [e|m2]; [discriminate|].
    destruct (setup_module env m2) as [e|m3]; [discriminate|].
    destruct (new_tokenizer env _ _) as [e|t]; [discriminate|].
    inversion H. subst.
    exists device_type, (pick_dtype device_type (is_bf16_supported env)),
           "lit_model.pth"%string.
    split; [reflexivity|]. split; [apply pick_dtype_bfloat16|].
    split; [destruct (pick_dtype _ _); auto|].
    split; [|split; [intros _; reflexivity | reflexivity]].
    intros Hq. apply is_gptq_iff in Hq. congruence.
Qed.

Lemma load_model_success_trace_witness :
  exists device_type d model_file,
    new_fabric (ref_loader ["ckpt/lit_model.pth"%string] "cuda" true)
    = Val device_type /\
    (d = BFloat16 <->
     device_type = "cuda"%string /\
     is_bf16_supported (ref_loader ["ckpt/lit_model.pth"%string] "cuda" true)
     = true) /\
    (d = BFloat16 \/ d = Float32) /\
    (Some "llm.int8"%string = Some "gptq.int4"%string ->
     model_file = "lit_model_gptq.4bit.pth"%string /\
     is_file (ref_loader ["ckpt/lit_model.pth"%string] "cuda" true)
             (path_join "ckpt" model_file) = true) /\
    (Some "llm.int8"%string <> Some "gptq.int4"%string ->
     model_file = "lit_model.pth"%string) /\
    [ LdCheckDir "ckpt"; LdReadConfig "ckpt/lit_config.json"; LdFabric;
      LdInitModel "cuda" BFloat16 (Some "llm.int8"%string);
      LdLoadCheckpoint "ckpt/lit_model.pth"; LdSetupModule;
      LdTokenizer "ckpt/tokenizer.json" "ckpt/tokenizer_config.json" ]
    = [ LdCheckDir "ckpt";
        LdReadConfig (path_join "ckpt" "lit_config.json");
        LdFabric;
        LdInitModel device_type d (Some "llm.int8"%string);
        LdLoadCheckpoint (path_join "ckpt" model_file);
        LdSetupModule;
        LdTokenizer (path_join "ckpt" "tokenizer.json")
                    (path_join "ckpt" "tokenizer_config.json") ].
Proof.
  apply (@load_model_success_trace unit (option string) unit
           (ref_loader ["ckpt/lit_model.pth"%string] "cuda" true)
           "ckpt" (Some "llm.int8"%string) _
           (Some "ckpt/lit_model.pth"%string) tt).
  vm_compute. reflexivity.
Defined.

(** X18.  Once the checkpoint directory, the configuration and the fabric
    are in place, [load_model] stops before the model is built exactly when
    [quantize] is ["gptq.int4"] and [lit_model_gptq.4bit.pth] is not a file
    of the checkpoint directory: it then raises the [ValueError] of line 130
    and has made no further call.  In every other case the model
    construction is the next call, so whatever is raised from there on,
    a [ValueError] included, comes from a collaborator. *)
Theorem load_model_value_error :
  forall (Cfg Mdl Tok : Type) (env : Loader Cfg Mdl Tok)
         (checkpoint_dir : string) (quantize : option string)
         (config : Cfg) (device_type : string),
    check_valid_checkpoint_dir env checkpoint_dir = Val tt ->
    read_config env (path_join checkpoint_dir "lit_config.json") = Val config ->
    new_fabric env = Val device_type ->
    let run := load_model env checkpoint_dir quantize in
    let missing :=
      quantize = Some "gptq.int4"%string /\
      is_file env (path_join checkpoint_dir "lit_model_gptq.4bit.pth") = false in
    let before_model :=
      [ LdCheckDir checkpoint_dir;
        LdReadConfig (path_join checkpoint_dir "lit_config.json");
        LdFabric ] in
    (fst run = before_model <-> missing) /\
    (missing ->
     run = (before_model,
            LoadFailed (ValueError "Please run `python quantize/gptq.py` first"))) /\
    (~ missing ->
     exists rest,
       fst run
       = before_model
         ++ LdInitModel device_type
                        (pick_dtype device_type (is_bf16_supported env))
                        quantize :: rest).
Proof.
  intros Cfg Mdl Tok env dir quantize config device_type Hc Hr Hf run missing
         before_model.
  assert (Hm : missing ->
               run = (before_model,
                      LoadFailed
                        (ValueError "Please run `python quantize/gptq.py` first"))).
  { subst run missing. intros [-> Hfile]. unfold load_model.
    rewrite Hc, Hr, Hf. simpl is_gptq. cbv beta iota. rewrite Hfile.
    reflexivity. }
  assert (Hn : ~ missing ->
               exists rest,
                 fst run
                 = before_model
                   ++ LdInitModel device_type
                        (pick_dtype device_type (is_bf16_supported env))
                        quantize :: rest).
  { subst run missing before_model. intros Hnot. unfold load_model.
    rewrite Hc, Hr, Hf.
    assert (Hgo : is_gptq quantize
                  && negb (is_file env
                             (path_join dir
                                (if is_gptq quantize
                                 then "lit_model_gptq.4bit.pth"%string
                                 else "lit_model.pth"%string))) = false).
    { destruct (is_gptq quantize) eqn:Eq; [|reflexivity].
      apply is_gptq_iff in Eq. simpl.
      destruct (is_file env (path_join dir "lit_model_gptq.4bit.pth")) eqn:Ef;
        [reflexivity|].
      exfalso. apply Hnot. split; [exact Eq | reflexivity]. }
    rewrite Hgo.
    destruct (init_model env config device_type _ quantize) as [e|m1];
      [eexists; reflexivity|].
    destruct (load_checkpoint env _ m1) as [e|m2]; [eexists; reflexivity|].
    destruct (setup_module env m2) as [e|m3]; [eexists; reflexivity|].
    destruct (new_tokenizer env _ _) as [e|t]; eexists; reflexivity. }
  split; [|split; [exact Hm | exact Hn]].
  split.
  - intros Hlog.
    assert (Hdec : missing \/ ~ missing).
    { subst missing.
      destruct (is_gptq quantize) eqn:Eq.
      - apply is_gptq_iff in Eq.
        destruct (is_file env (path_join dir "lit_model_gptq.4bit.pth"));
          [right; intros [_ H]; discriminate | left; split; [exact Eq | reflexivity]].
      - right. intros [Hq _]. apply is_gptq_iff in Hq. congruence. }
    destruct Hdec as [Hyes|Hno]; [exact Hyes|].
    exfalso. destruct (Hn Hno) as [rest Hrest].
    rewrite Hrest in Hlog. apply (f_equal (@length load_event)) in Hlog.
    subst before_model. rewrite length_app in Hlog. simpl in Hlog. lia.
  - intros Hmiss. rewrite (Hm Hmiss). reflexivity.
Qed.

Lemma load_model_value_error_witness :
  let env := ref_loader ["ckpt/lit_model.pth"%string] "cpu" false in
  let run := load_model env "ckpt" (Some "gptq.int4"%string) in
  let missing :=
    Some "gptq.int4"%string = Some "gptq.int4"%string /\
    is_file env (path_join "ckpt" "lit_model_gptq.4bit.pth") = false in
  let before_model :=
    [ LdCheckDir "ckpt"; LdReadConfig (path_join "ckpt" "lit_config.json");
      LdFabric ] in
  (fst run = before_model <-> missing) /\
  (missing ->
   run = (before_model,
          LoadFailed (ValueError "Please run `python quantize/gptq.py` first"))) /\
  (~ missing ->
   exists rest,
     fst run
     = before_model
       ++ LdInitModel "cpu" (pick_dtype "cpu" (is_bf16_supported env))
                      (Some "gptq.int4"%string) :: rest).
Proof.
  apply (@load_model_value_error unit (option string) unit
           (ref_loader ["ckpt/lit_model.pth"%string] "cpu" false)
           "ckpt" (Some "gptq.int4"%string) tt "cpu"); reflexivity.
Defined.

(* ================================================================== *)
(** ** Closed instances of the generator facts                         *)
(* ================================================================== *)

Lemma infere_body_yields_at_most_one_witness :
  exists extra,
    yields [ EvEncode "HI"; EvSeed 1234;
             EvForward [7; 8]%Z 5 [0; 1]%nat; EvForward [0]%Z 5 [2]%nat;
             EvForward [5]%Z 5 [3]%nat;
             EvResetCache; EvDecode [7; 8; 0; 5; 10]%Z;
             EvForward [7; 8]%Z 5 [0; 1]%nat; EvForward [20]%Z 5 [2]%nat;
             EvForward [15]%Z 5 [3]%nat;
             EvResetCache; EvDecode [7; 8; 20; 15; 20]%Z;
             EvYield "HIUPU" ] = yields [] ++ extra /\
    (length extra <= 1)%nat.
Proof.
  exact (@infere_body_yields_at_most_one _ _ _ _ _ _ _ _ _ _ _ _
           infere_run_two).
Defined.

Lemma infere_body_seeded_witness :
  let run1 := infere_body bound_globals (flat_model 26) ref_torch
                          letter_tokenizer "HI" 2 3 None (8 # 10)
                          (World (C := nat) (G := Z) 7%nat 1%Z []) in
  let run2 := infere_body bound_globals (uncached_flat_model 26) ref_torch
                          letter_tokenizer "HI" 2 3 None (8 # 10)
                          (World (C := unit) (G := Z) tt 2%Z []) in
  snd run1 = snd run2 /\ w_log (fst run1) = w_log (fst run2).
Proof.
  apply (@infere_body_seeded (flat_model 26) (uncached_flat_model 26) ref_torch
           letter_tokenizer (fun _ _ => True)).
  - intros c1 c2 x msl pos _. simpl. split; [reflexivity | exact I].
  - intros c1 c2 _. exact I.
  - reflexivity.
  - exact I.
Defined.
